(** * circalloc: the circular-buffer allocator of [circalloc/alloctest.c]

    A shallow embedding of the single-threaded prototype allocator
    ([avail], [circallocblock], [circalloc], [circfree]) and the
    properties of it that the specification states.

    The arena [uint8_t buffer[BUFFSIZE]] is a list of bytes; [head] and
    [tail] are [uint32_t] values carried as [Z] with the wrap-around
    written out.  Pointers into the arena are byte offsets from [buffer];
    the null pointer is [None]. *)

From Stdlib Require Import ZArith Lia List Bool.
From stdpp Require Import base list.
Import ListNotations.

Local Open Scope Z_scope.

(** ** Machine integers *)

(** [uint32_t]: reduction modulo 2^32. *)
Definition u32 (x : Z) : Z := x mod 2 ^ 32.

(** [int]: conversion of a value to 32-bit two's complement. *)
Definition i32 (x : Z) : Z := (x + 2 ^ 31) mod 2 ^ 32 - 2 ^ 31.

(** ** The arena *)

Definition BUFFSIZE : Z := 2048.

Definition HDR_FREE : Z := 0.
Definition HDR_INUSE : Z := 1.
Definition HDR_GAP : Z := 2.

(** [struct hdr { uint8_t free; uint32_t len; }]: [free] is the byte at
    offset 0, [len] the four bytes at offset 4 (little endian), and
    [sizeof(struct hdr)] is 8, the layout the source reports as
    [Metadata Size = 0x0008]. *)
Definition sizeof_hdr : Z := 8.
Definition offsetof_len : Z := 4.

Module Mem.

(** Byte access.  An access outside the array is undefined in C; here
    a load yields 0 and a store is dropped.  In the states of a valid
    run every header lies at a multiple of 16 below [BUFFSIZE], so the
    accesses of the allocator are in range. *)
Definition load8 (m : list Z) (a : Z) : Z :=
  if a <? 0 then 0 else default 0 (m !! Z.to_nat a).

Definition store8 (m : list Z) (a : Z) (v : Z) : list Z :=
  if a <? 0 then m else <[Z.to_nat a := v mod 256]> m.

Definition load32 (m : list Z) (a : Z) : Z :=
  load8 m a + 2 ^ 8 * load8 m (a + 1) + 2 ^ 16 * load8 m (a + 2)
  + 2 ^ 24 * load8 m (a + 3).

Definition store32 (m : list Z) (a : Z) (v : Z) : list Z :=
  store8 (store8 (store8 (store8 m a v) (a + 1) (v / 2 ^ 8))
                 (a + 2) (v / 2 ^ 16))
         (a + 3) (v / 2 ^ 24).

(** [meta->free] and [meta->len] for [meta = (struct hdr * )(buffer + off)]. *)
Definition hdr_free (m : list Z) (off : Z) : Z := load8 m off.
Definition hdr_len (m : list Z) (off : Z) : Z := load32 m (off + offsetof_len).

Definition set_free (m : list Z) (off : Z) (f : Z) : list Z := store8 m off f.
Definition set_len (m : list Z) (off : Z) (l : Z) : list Z :=
  store32 m (off + offsetof_len) l.

End Mem.

(** Two headers that do not overlap. *)
Definition apart (o o' : Z) : Prop :=
  o + sizeof_hdr <= o' \/ o' + sizeof_hdr <= o.

(** ** Allocator state: the globals [buffer], [head], [tail] *)

Record state : Type := mkState {
  buffer : list Z;
  head : Z;
  tail : Z
}.

(** [uint32_t avail()] *)
Definition avail (st : state) : Z :=
  if tail st <=? head st
  then u32 (u32 (BUFFSIZE - head st) + tail st)
  else u32 (tail st - head st).

(** [void circallocblock(uint32_t size, uint8_t hdr_free)] *)
Definition circallocblock (size hdr_free : Z) (st : state) : state :=
  if size =? 0 then st
  else
    let m1 := Mem.set_free (buffer st) (head st) hdr_free in
    let m2 := Mem.set_len m1 (head st) size in
    mkState m2 (u32 (head st + size) mod BUFFSIZE) (tail st).

(** [int block_size = (size + sizeof(struct hdr) + 0xF) & ~0xF;] *)
Definition block_size (size : Z) : Z :=
  i32 (Z.land (size + sizeof_hdr + 15) (Z.lnot 15)).

(** The guard of the wrap branch: the comparison is made in
    [unsigned int]. *)
Definition wraps (st : state) (size : Z) : bool :=
  (tail st <=? head st) && (u32 (BUFFSIZE - head st) <? u32 (block_size size)).

(** The local [rem] after the wrap branch. *)
Definition rem_of (st : state) (size : Z) : Z :=
  if wraps st size then i32 (u32 (BUFFSIZE - head st)) else 0.

(** The local [offset] after the wrap branch. *)
Definition offset_of (st : state) (size : Z) : Z :=
  if wraps st size then 0 else i32 (head st).

(** [void *circalloc(uint32_t size)].  The sum [block_size + rem] is an
    [int] addition compared against an [unsigned]: it is taken modulo
    2^32 (for the sizes of the theorems below it does not overflow). *)
Definition circalloc (st : state) (size : Z) : state * option Z :=
  let bs := block_size size in
  let rem := rem_of st size in
  let offset := offset_of st size in
  if avail st <=? u32 (bs + rem) then (st, None)
  else
    let st1 := circallocblock (u32 rem) HDR_GAP st in
    let st2 := circallocblock (u32 bs) HDR_INUSE st1 in
    (st2, Some (offset + sizeof_hdr)).

(** The [do ... while (head != tail)] loop of [circfree].  [meta] and
    [gmeta] are offsets into the arena ([gmeta = NULL] is [None]); the
    loop only reads the arena and [head], and updates [tail].  The source
    warns that the loop may not terminate on a corrupted arena, so the
    model takes fuel: [None] means the fuel ran out. *)
Fixpoint free_loop (fuel : nat) (m : list Z) (hd : Z)
    (tl meta : Z) (gmeta : option Z) : option Z :=
  match fuel with
  | O => None
  | S fuel' =>
      let f := Mem.hdr_free m meta in
      if f =? HDR_INUSE then Some tl
      else
        let '(tl', meta', gmeta') :=
          if f =? HDR_GAP then
            let gtail := u32 (tl + Mem.hdr_len m meta) mod BUFFSIZE in
            (tl, gtail, Some meta)
          else if f =? HDR_FREE then
            let tl1 := match gmeta with
                       | Some g => u32 (tl + Mem.hdr_len m g) mod BUFFSIZE
                       | None => tl
                       end in
            let tl2 := u32 (tl1 + Mem.hdr_len m meta) mod BUFFSIZE in
            (tl2, tl2, None)
          else (tl, meta, gmeta) in
        if hd =? tl' then Some tl'
        else free_loop fuel' m hd tl' meta' gmeta'
  end.

(** [void circfree(void *addr)] *)
Definition circfree (fuel : nat) (st : state) (addr : Z) : option state :=
  let m := Mem.set_free (buffer st) (addr - sizeof_hdr) HDR_FREE in
  match free_loop fuel m (head st) (tail st) (tail st) None with
  | Some tl' => Some (mkState m (head st) tl')
  | None => None
  end.

(** ** The scenarios of [main] *)

(** [testreset] followed by the preload [head = tail = t]. *)
Definition preload (m : list Z) (t : Z) : state := mkState m t t.

Definition zero_arena : list Z := replicate (Z.to_nat BUFFSIZE) 0.

Definition FUEL : nat := 128.

(** Run [circfree] when the previous step produced a state. *)
Definition free_in (addr : option Z) (st : option state) : option state :=
  match st, addr with
  | Some s, Some a => circfree FUEL s a
  | _, _ => None
  end.

Definition ht (st : option state) : option (Z * Z) :=
  match st with Some s => Some (head s, tail s) | None => None end.

(** ** Outstanding blocks

    The blocks handed out by [circalloc] and not yet passed by [tail],
    oldest first.  This queue is bookkeeping of the proofs: the code
    keeps it only implicitly, as the headers chained from [tail] to
    [head]. *)

Record block : Type := mkBlock {
  bstart : Z;   (* offset of the header in the arena *)
  blen : Z;     (* [len] of the header *)
  bflag : Z     (* [free] of the header *)
}.

Definition total (q : list block) : Z :=
  fold_right (fun b s => blen b + s) 0 q.

(** The pointers of the blocks that are in use. *)
Definition live (q : list block) : list Z :=
  List.map (fun b => bstart b + sizeof_hdr)
           (List.filter (fun b => bflag b =? HDR_INUSE) q).

(** The blocks a call [circalloc st size] adds: the gap block when the
    call wraps, then the block of the caller. *)
Definition new_blocks (st : state) (size : Z) : list block :=
  match snd (circalloc st size) with
  | None => []
  | Some p =>
      (if wraps st size
       then [mkBlock (head st) (rem_of st size) HDR_GAP] else [])
      ++ [mkBlock (p - sizeof_hdr) (block_size size) HDR_INUSE]
  end.

(** The caller of [circfree addr] releases the block of [addr]. *)
Definition mark (addr : Z) (q : list block) : list block :=
  List.map (fun b => if bstart b =? addr - sizeof_hdr
                     then mkBlock (bstart b) (blen b) HDR_FREE else b) q.

(** The blocks that leave the queue at the front: freed blocks, and gap
    blocks in front of a freed block. *)
Fixpoint retired (q : list block) : list block :=
  match q with
  | [] => []
  | b :: q' =>
      if bflag b =? HDR_FREE then b :: retired q'
      else if bflag b =? HDR_GAP then
        match q' with
        | c :: q'' => if bflag c =? HDR_FREE then b :: c :: retired q'' else []
        | [] => []
        end
      else []
  end.

(** The blocks that stay. *)
Fixpoint retire (q : list block) : list block :=
  match q with
  | [] => []
  | b :: q' =>
      if bflag b =? HDR_FREE then retire q'
      else if bflag b =? HDR_GAP then
        match q' with
        | c :: q'' => if bflag c =? HDR_FREE then retire q'' else q
        | [] => q
        end
      else q
  end.

(** The oldest block of a caller: the first block that is not a gap. *)
Definition oldest (q : list block) : option block :=
  match q with
  | [] => None
  | b :: q' => if bflag b =? HDR_GAP then hd_error q' else Some b
  end.

(** Offset of the first block of [q], or [h] when there is none. *)
Definition start_of (q : list block) (h : Z) : Z :=
  match q with
  | [] => h
  | b :: _ => bstart b
  end.

(** ** Valid runs *)

(** Sizes for which the [int] arithmetic of [circalloc] is exact. *)
Definition size_ok (size : Z) : Prop :=
  0 <= size /\ size + sizeof_hdr + 15 + BUFFSIZE < 2 ^ 31.

(** The outstanding pointers after [circalloc] returned [r]. *)
Definition ptrs_after (r : option Z) (ptrs : list Z) : list Z :=
  match r with
  | Some p => p :: ptrs
  | None => ptrs
  end.

(** [reachable st ptrs q]: the state [st] is reached from an empty
    allocator ([head = tail], as after [testreset] and a preload) by
    calls of [circalloc] and by calls of [circfree] on pointers that
    [circalloc] returned and that were not freed since; [ptrs] are the
    pointers still to be freed and [q] the outstanding blocks. *)
Inductive reachable : state -> list Z -> list block -> Prop :=
| reach_empty (m : list Z) (t : Z) :
    length m = Z.to_nat BUFFSIZE ->
    0 <= t < BUFFSIZE -> t mod 16 = 0 ->
    reachable (preload m t) [] []
| reach_alloc (st : state) (ptrs : list Z) (q : list block) (size : Z) :
    reachable st ptrs q ->
    size_ok size ->
    reachable (fst (circalloc st size))
              (ptrs_after (snd (circalloc st size)) ptrs)
              (q ++ new_blocks st size)
| reach_free (st : state) (ptrs : list Z) (q : list block)
    (addr : Z) (fuel : nat) (st' : state) :
    reachable st ptrs q ->
    In addr ptrs ->
    circfree fuel st addr = Some st' ->
    reachable st' (List.remove Z.eq_dec addr ptrs) (retire (mark addr q)).

(** ** The invariant of valid runs *)

(** The blocks of [q] lie one after the other from [t] to [h], modulo
    [BUFFSIZE]. *)
Fixpoint layout (t h : Z) (q : list block) : Prop :=
  match q with
  | [] => t = h
  | b :: q' => bstart b = t /\ layout ((t + blen b) mod BUFFSIZE) h q'
  end.

(** A block of the queue and its header in the arena [m]. *)
Definition block_ok (m : list Z) (b : block) : Prop :=
  (0 <= bstart b < BUFFSIZE /\ bstart b mod 16 = 0) /\
  (0 < blen b /\ blen b mod 16 = 0) /\
  (bflag b = HDR_FREE \/ bflag b = HDR_INUSE \/ bflag b = HDR_GAP) /\
  Mem.hdr_free m (bstart b) = bflag b /\
  Mem.hdr_len m (bstart b) = blen b.

(** A gap block is followed by a block that is not a gap. *)
Fixpoint gaps_ok (q : list block) : Prop :=
  match q with
  | [] => True
  | b :: q' =>
      (bflag b = HDR_GAP ->
       match q' with c :: _ => bflag c <> HDR_GAP | [] => False end)
      /\ gaps_ok q'
  end.

(** The oldest block of a caller, when there is one, is in use. *)
Definition front_ok (q : list block) : Prop :=
  q = [] \/ exists b, oldest q = Some b /\ bflag b = HDR_INUSE.

Record inv (st : state) (ptrs : list Z) (q : list block) : Prop := mkInv {
  inv_len : length (buffer st) = Z.to_nat BUFFSIZE;
  inv_head : 0 <= head st < BUFFSIZE /\ head st mod 16 = 0;
  inv_tail : 0 <= tail st < BUFFSIZE /\ tail st mod 16 = 0;
  inv_layout : layout (tail st) (head st) q;
  inv_total : total q < BUFFSIZE;
  inv_blocks : Forall (block_ok (buffer st)) q;
  inv_gaps : gaps_ok q;
  inv_front : front_ok q;
  inv_ptrs : forall p : Z, In p ptrs <-> In p (live q)
}.

(** ** Quantities of the specification *)

(** [round_up x a]: the least multiple of [a] that is at least [x]. *)
Definition round_up (x a : Z) : Z := (x + a - 1) / a * a.

(** The specification's block length,
    [nsize = round_up(size, 16) + 16]. *)
Definition spec_nsize (size : Z) : Z := round_up size 16 + 16.

(** The bytes held between [tail] and [head], the [L_B] of the
    specification. *)
Definition held (st : state) : Z := (head st - tail st) mod BUFFSIZE.

(** The total reservation of a call: the block and the wrap gap. *)
Definition rsize (st : state) (size : Z) : Z :=
  block_size size + rem_of st size.

(** [head] and [tail] are offsets into the arena. *)
Definition state_ok (st : state) : Prop :=
  0 <= head st < BUFFSIZE /\ 0 <= tail st < BUFFSIZE.

(** Every block has a positive length. *)
Definition lens_pos (q : list block) : Prop :=
  Forall (fun b => 0 < blen b) q.

(** The state after a valid call of [circfree]. *)
Definition freed (st : state) (q : list block) (addr : Z) : state :=
  mkState (Mem.set_free (buffer st) (addr - sizeof_hdr) HDR_FREE)
          (head st)
          (start_of (retire (mark addr q)) (head st)).

(** ** States of the scenarios of [main] *)

(** The state an operation produced, [d] when it produced none. *)
Definition the_state (o : option state) (d : state) : state :=
  match o with
  | Some s => s
  | None => d
  end.

(** Tests 2 and 3: three allocations after [testreset]. *)
Definition test2_0 : state := preload zero_arena 0.
Definition test2_1 : state := fst (circalloc test2_0 10).
Definition test2_2 : state := fst (circalloc test2_1 8).
Definition test2_3 : state := fst (circalloc test2_2 1001).

(** Tests 4 and 5: the preload [head = tail = BUFFSIZE - 48]. *)
Definition test4_0 : state := preload zero_arena (BUFFSIZE - 48).

(** Test 6: the preload [head = tail = 512] and three allocations. *)
Definition test6_0 : state := preload zero_arena 512.
Definition test6_1 : state := fst (circalloc test6_0 1500).
Definition test6_2 : state := fst (circalloc test6_1 250).
Definition test6_3 : state := fst (circalloc test6_2 120).

(** The outstanding pointers and blocks of these states. *)
Definition test2_ptrs1 : list Z := ptrs_after (snd (circalloc test2_0 10)) [].
Definition test2_ptrs2 : list Z := ptrs_after (snd (circalloc test2_1 8)) test2_ptrs1.
Definition test2_ptrs3 : list Z := ptrs_after (snd (circalloc test2_2 1001)) test2_ptrs2.
Definition test2_q1 : list block := [] ++ new_blocks test2_0 10.
Definition test2_q2 : list block := test2_q1 ++ new_blocks test2_1 8.
Definition test2_q3 : list block := test2_q2 ++ new_blocks test2_2 1001.

Definition test6_ptrs1 : list Z := ptrs_after (snd (circalloc test6_0 1500)) [].
Definition test6_ptrs2 : list Z := ptrs_after (snd (circalloc test6_1 250)) test6_ptrs1.
Definition test6_ptrs3 : list Z := ptrs_after (snd (circalloc test6_2 120)) test6_ptrs2.
Definition test6_q1 : list block := [] ++ new_blocks test6_0 1500.
Definition test6_q2 : list block := test6_q1 ++ new_blocks test6_1 250.
Definition test6_q3 : list block := test6_q2 ++ new_blocks test6_2 120.

(** Test 2 continued: [free(p2)], then [free(p1)]. *)
Definition test2_4 : state := the_state (circfree FUEL test2_3 40) test2_3.
Definition test2_ptrs4 : list Z := List.remove Z.eq_dec 40 test2_ptrs3.
Definition test2_q4 : list block := retire (mark 40 test2_q3).

(** Test 3: [free(p3)], [free(p2)], [free(p1)]. *)
Definition test3_4 : state := the_state (circfree FUEL test2_3 56) test2_3.
Definition test3_5 : state := the_state (circfree FUEL test3_4 40) test3_4.
Definition test3_6 : state := the_state (circfree FUEL test3_5 8) test3_5.
Definition test3_ptrs4 : list Z := List.remove Z.eq_dec 56 test2_ptrs3.
Definition test3_ptrs5 : list Z := List.remove Z.eq_dec 40 test3_ptrs4.
Definition test3_ptrs6 : list Z := List.remove Z.eq_dec 8 test3_ptrs5.
Definition test3_q4 : list block := retire (mark 56 test2_q3).
Definition test3_q5 : list block := retire (mark 40 test3_q4).
Definition test3_q6 : list block := retire (mark 8 test3_q5).

(** * The test harness of [alloctest.c] *)

(** [uint32_t testgetoffset(void *addr)]: the offset of [addr] in the
    arena as an [uint32_t], and [(uint32_t)-1] for the null pointer. *)
Definition testgetoffset (addr : option Z) : Z :=
  match addr with
  | None => u32 (-1)
  | Some a => u32 a
  end.

(** [int testgetaligned(uint32_t size)]: [(size + 0xF) & ~0xF], computed
    in [unsigned int] and returned as an [int]. *)
Definition testgetaligned (size : Z) : Z :=
  i32 (Z.land (u32 (size + 15)) (u32 (Z.lnot 15))).

(** [void testreset(const char *testcasename)]: [head = 0; tail = 0;]
    the arena keeps its content.  (The lines the harness prints are not
    part of the model.) *)
Definition testreset (st : state) : state := mkState (buffer st) 0 0.

(** What a run of the harness can come to: a value and the globals, the
    [exit(code)] of a failed assertion, undefined behaviour, or a loop of
    [circfree] that is still running when the fuel is spent. *)
Inductive outcome (A : Type) : Type :=
| Ret (a : A) (st : state)
| Exit (code : Z)
| Undefined
| Spin.

Arguments Ret {A} a st.
Arguments Exit {A} code.
Arguments Undefined {A}.
Arguments Spin {A}.

(** Computations over the globals. *)
Definition M (A : Type) : Type := state -> outcome A.

Definition ret {A : Type} (a : A) : M A := fun st => Ret a st.

Definition bind {A B : Type} (m : M A) (k : A -> M B) : M B :=
  fun st =>
    match m st with
    | Ret a st' => k a st'
    | Exit c => Exit c
    | Undefined => Undefined
    | Spin => Spin
    end.

Notation "x <~ m ;; k" := (bind m (fun x => k))
  (at level 100, m at next level, right associativity).
Notation "m ;;; k" := (bind m (fun _ => k))
  (at level 100, right associativity).

(** [void *testalloc(uint32_t size)] *)
Definition testalloc (size : Z) : M (option Z) :=
  fun st => Ret (snd (circalloc st size)) (fst (circalloc st size)).

(** [void testfree(void *addr)]; [circfree(NULL)] would form the pointer
    [NULL - sizeof(struct hdr)]. *)
Definition testfree (fuel : nat) (addr : option Z) : M unit :=
  fun st =>
    match addr with
    | None => Undefined
    | Some a =>
        match circfree fuel st a with
        | Some st' => Ret tt st'
        | None => Spin
        end
    end.

Definition do_testreset : M unit := fun st => Ret tt (testreset st).

(** [head = v; tail = head;] *)
Definition set_head_tail (v : Z) : M unit :=
  fun st => Ret tt (mkState (buffer st) (u32 v) (u32 v)).

(** The macros [ASSERT_EQ] and [ASSERT_LE]: [exit(1)] when the
    comparison fails. *)
Definition ASSERT_EQ (a : state -> Z) (b : Z) : M unit :=
  fun st => if a st =? b then Ret tt st else Exit 1.

Definition ASSERT_PTR_EQ (p q : option Z) : M unit :=
  fun st =>
    match p, q with
    | None, None => Ret tt st
    | Some a, Some b => if a =? b then Ret tt st else Exit 1
    | _, _ => Exit 1
    end.

Definition ASSERT_LE (a b : Z) : M unit :=
  fun st => if a <=? b then Ret tt st else Exit 1.

(** The three allocations that open tests 1, 2 and 3. *)
Definition three_allocs : M (option Z * option Z * option Z) :=
  p1 <~ testalloc 10 ;;
  ASSERT_EQ tail 0 ;;; ASSERT_EQ head 0x20 ;;;
  p2 <~ testalloc 8 ;;
  ASSERT_EQ tail 0 ;;; ASSERT_EQ head 0x30 ;;;
  p3 <~ testalloc 1001 ;;
  ASSERT_EQ tail 0 ;;; ASSERT_EQ head 0x430 ;;;
  ret (p1, p2, p3).

Definition test1 (fuel : nat) : M unit :=
  do_testreset ;;;
  ps <~ three_allocs ;;
  let '(p1, p2, p3) := ps in
  testfree fuel p1 ;;; ASSERT_EQ tail 0x20 ;;; ASSERT_EQ head 0x430 ;;;
  testfree fuel p2 ;;; ASSERT_EQ tail 0x30 ;;; ASSERT_EQ head 0x430 ;;;
  testfree fuel p3 ;;; ASSERT_EQ tail 0x430 ;;; ASSERT_EQ head 0x430.

Definition test2 (fuel : nat) : M unit :=
  do_testreset ;;;
  ps <~ three_allocs ;;
  let '(p1, p2, p3) := ps in
  testfree fuel p2 ;;; ASSERT_EQ tail 0x00 ;;; ASSERT_EQ head 0x430 ;;;
  testfree fuel p1 ;;; ASSERT_EQ tail 0x30 ;;; ASSERT_EQ head 0x430 ;;;
  testfree fuel p3 ;;; ASSERT_EQ tail 0x430 ;;; ASSERT_EQ head 0x430.

Definition test3 (fuel : nat) : M unit :=
  do_testreset ;;;
  ps <~ three_allocs ;;
  let '(p1, p2, p3) := ps in
  testfree fuel p3 ;;; ASSERT_EQ tail 0x0 ;;; ASSERT_EQ head 0x430 ;;;
  testfree fuel p2 ;;; ASSERT_EQ tail 0x0 ;;; ASSERT_EQ head 0x430 ;;;
  testfree fuel p1 ;;; ASSERT_EQ tail 0x430 ;;; ASSERT_EQ head 0x430.

Definition test4 (fuel : nat) : M unit :=
  do_testreset ;;;
  set_head_tail (BUFFSIZE - 48) ;;;
  p1 <~ testalloc 30 ;;
  ASSERT_EQ tail (BUFFSIZE - 48) ;;; ASSERT_EQ head 0 ;;;
  p2 <~ testalloc 20 ;;
  ASSERT_EQ tail (BUFFSIZE - 48) ;;; ASSERT_EQ head 0x20 ;;;
  testfree fuel p1 ;;; ASSERT_EQ tail 0 ;;; ASSERT_EQ head 0x20 ;;;
  testfree fuel p2 ;;; ASSERT_EQ tail 0x20 ;;; ASSERT_EQ head 0x20.

Definition test5 (fuel : nat) (msize : Z) : M unit :=
  do_testreset ;;;
  set_head_tail (BUFFSIZE - 48) ;;;
  p1 <~ testalloc 1000 ;;
  ASSERT_EQ tail (BUFFSIZE - 48) ;;; ASSERT_EQ head 0x3F0 ;;;
  ASSERT_PTR_EQ p1 (Some msize) ;;;
  p2 <~ testalloc 20 ;;
  ASSERT_EQ tail (BUFFSIZE - 48) ;;; ASSERT_EQ head 0x410 ;;;
  testfree fuel p1 ;;; ASSERT_EQ tail 0x3F0 ;;; ASSERT_EQ head 0x410 ;;;
  testfree fuel p2 ;;; ASSERT_EQ tail 0x410 ;;; ASSERT_EQ head 0x410.

Definition test6 (fuel : nat) : M unit :=
  do_testreset ;;;
  set_head_tail 512 ;;;
  p1 <~ testalloc 1500 ;;
  ASSERT_EQ tail 0x200 ;;; ASSERT_EQ head 0x7F0 ;;;
  p2 <~ testalloc 250 ;;
  ASSERT_EQ tail 0x200 ;;; ASSERT_EQ head 0x110 ;;;
  p3 <~ testalloc 120 ;;
  ASSERT_EQ tail 0x200 ;;; ASSERT_EQ head 0x190 ;;;
  p4 <~ testalloc 121 ;;
  ASSERT_PTR_EQ p4 None ;;;
  ASSERT_EQ tail 0x200 ;;; ASSERT_EQ head 0x190 ;;;
  p4 <~ testalloc 104 ;;
  ASSERT_PTR_EQ p4 None ;;;
  ASSERT_EQ tail 0x200 ;;; ASSERT_EQ head 0x190 ;;;
  p4 <~ testalloc 88 ;;
  ASSERT_EQ tail 0x200 ;;; ASSERT_EQ head 0x1F0 ;;;
  testfree fuel p1 ;;; ASSERT_EQ tail 0x7F0 ;;; ASSERT_EQ head 0x1F0 ;;;
  testfree fuel p3 ;;; ASSERT_EQ tail 0x7F0 ;;; ASSERT_EQ head 0x1F0 ;;;
  testfree fuel p2 ;;; ASSERT_EQ tail 0x190 ;;; ASSERT_EQ head 0x1F0 ;;;
  testfree fuel p4 ;;; ASSERT_EQ tail 0x1F0 ;;; ASSERT_EQ head 0x1F0.

(** [int main(void)]: the six tests run one after the other on the same
    arena, which [testreset] does not clear. *)
Definition main (fuel : nat) : M Z :=
  let msize := sizeof_hdr in
  ASSERT_LE msize 16 ;;;
  test1 fuel ;;; test2 fuel ;;; test3 fuel ;;;
  test4 fuel ;;; test5 fuel msize ;;; test6 fuel ;;;
  ret 0.

(** The globals when the program starts: zero-initialised. *)
Definition start_state : state := mkState zero_arena 0 0.

(** ** Extents of blocks *)

(** The block lies inside the arena. *)
Definition fits (b : block) : Prop := bstart b + blen b <= BUFFSIZE.

(** The byte [a] belongs to the block [b]. *)
Definition in_block (a : Z) (b : block) : Prop :=
  bstart b <= a < bstart b + blen b.

(** Two blocks share no byte. *)
Definition disjoint (b c : block) : Prop :=
  bstart b + blen b <= bstart c \/ bstart c + blen c <= bstart b.

(** * Properties *)

(** ** Byte and header accesses *)

Section MemFacts.

Import Mem.

Implicit Types (m : list Z) (a b o v f l : Z).

Lemma length_store8 m a v : length (store8 m a v) = length m.
Proof.
  unfold store8. destruct (a <? 0); [reflexivity | apply length_insert].
Qed.

Lemma length_store32 m a v : length (store32 m a v) = length m.
Proof. unfold store32. now rewrite !length_store8. Qed.

Lemma load8_store8_eq m a v :
  0 <= a < Z.of_nat (length m) -> load8 (store8 m a v) a = v mod 256.
Proof.
  intros Ha. unfold load8, store8.
  destruct (Z.ltb_spec a 0) as [Hn | _]; [lia |].
  rewrite list_lookup_insert_eq; [reflexivity | lia].
Qed.

Lemma load8_store8_ne m a b v :
  a <> b -> load8 (store8 m a v) b = load8 m b.
Proof.
  intros Hab. unfold load8, store8.
  destruct (Z.ltb_spec b 0) as [Hb | Hb]; [reflexivity |].
  destruct (Z.ltb_spec a 0) as [Ha | Ha]; [reflexivity |].
  rewrite list_lookup_insert_ne; [reflexivity | lia].
Qed.

Lemma load8_store32_ne m a b v :
  b < a \/ a + 4 <= b -> load8 (store32 m a v) b = load8 m b.
Proof.
  intros Hab. unfold store32.
  rewrite !load8_store8_ne by lia. reflexivity.
Qed.

Lemma load32_store8_ne m a b v :
  b < a \/ a + 4 <= b -> load32 (store8 m b v) a = load32 m a.
Proof.
  intros Hab. unfold load32.
  rewrite !load8_store8_ne by lia. reflexivity.
Qed.

Lemma load32_store32_ne m a b v :
  b + 4 <= a \/ a + 4 <= b -> load32 (store32 m a v) b = load32 m b.
Proof.
  intros Hab. unfold load32.
  rewrite !load8_store32_ne by lia. reflexivity.
Qed.

Lemma load32_store32_eq m a v :
  0 <= a -> a + 4 <= Z.of_nat (length m) -> 0 <= v < 2 ^ 32 ->
  load32 (store32 m a v) a = v.
Proof.
  intros Ha Hlen Hv. unfold load32, store32.
  rewrite (load8_store8_ne _ (a + 3) a), (load8_store8_ne _ (a + 2) a),
    (load8_store8_ne _ (a + 1) a) by lia.
  rewrite (load8_store8_ne _ (a + 3) (a + 1)),
    (load8_store8_ne _ (a + 2) (a + 1)) by lia.
  rewrite (load8_store8_ne _ (a + 3) (a + 2)) by lia.
  rewrite !load8_store8_eq by (rewrite ?length_store8; lia).
  change (2 ^ 8) with 256. change (2 ^ 16) with 65536.
  change (2 ^ 24) with 16777216. change (2 ^ 32) with 4294967296 in Hv.
  replace (v / 65536) with (v / 256 / 256)
    by (rewrite Z.div_div by lia; reflexivity).
  replace (v / 16777216) with (v / 256 / 256 / 256)
    by (rewrite !Z.div_div by lia; reflexivity).
  pose proof (Z.div_mod v 256). pose proof (Z.div_mod (v / 256) 256).
  pose proof (Z.div_mod (v / 256 / 256) 256).
  pose proof (Z.mod_pos_bound v 256).
  pose proof (Z.mod_pos_bound (v / 256) 256).
  pose proof (Z.mod_pos_bound (v / 256 / 256) 256).
  assert (0 <= v / 256 / 256 / 256 < 256).
  { split; [repeat apply Z.div_pos; lia |].
    rewrite !Z.div_div by lia. apply Z.div_lt_upper_bound; lia. }
  rewrite (Z.mod_small (v / 256 / 256 / 256)) by lia.
  lia.
Qed.

(** Header fields at the header that was written. *)
Lemma hdr_free_set_free m o f :
  0 <= o < Z.of_nat (length m) -> 0 <= f < 256 ->
  hdr_free (set_free m o f) o = f.
Proof.
  intros Ho Hf. unfold hdr_free, set_free.
  rewrite load8_store8_eq by lia. apply Z.mod_small. lia.
Qed.

Lemma hdr_len_set_len m o l :
  0 <= o -> o + sizeof_hdr <= Z.of_nat (length m) -> 0 <= l < 2 ^ 32 ->
  hdr_len (set_len m o l) o = l.
Proof.
  unfold hdr_len, set_len, sizeof_hdr, offsetof_len. intros Ho Hlen Hl.
  apply load32_store32_eq; lia.
Qed.

(** The two fields of one header do not overlap. *)
Lemma hdr_free_set_len_same m o l : hdr_free (set_len m o l) o = hdr_free m o.
Proof.
  unfold hdr_free, set_len, offsetof_len. apply load8_store32_ne. lia.
Qed.

Lemma hdr_len_set_free_same m o f : hdr_len (set_free m o f) o = hdr_len m o.
Proof.
  unfold hdr_len, set_free, offsetof_len. apply load32_store8_ne. lia.
Qed.

(** Headers that lie at least [sizeof_hdr] apart are independent. *)

Lemma hdr_free_set_free_apart m o o' f :
  o <> o' -> hdr_free (set_free m o f) o' = hdr_free m o'.
Proof. intros H. now apply load8_store8_ne. Qed.

Lemma hdr_len_set_free_apart m o o' f :
  apart o o' -> hdr_len (set_free m o f) o' = hdr_len m o'.
Proof.
  unfold apart, hdr_len, set_free, sizeof_hdr, offsetof_len. intros H.
  apply load32_store8_ne. lia.
Qed.

Lemma hdr_free_set_len_apart m o o' l :
  apart o o' -> hdr_free (set_len m o l) o' = hdr_free m o'.
Proof.
  unfold apart, hdr_free, set_len, sizeof_hdr, offsetof_len. intros H.
  apply load8_store32_ne. lia.
Qed.

Lemma hdr_len_set_len_apart m o o' l :
  apart o o' -> hdr_len (set_len m o l) o' = hdr_len m o'.
Proof.
  unfold apart, hdr_len, set_len, sizeof_hdr, offsetof_len. intros H.
  apply load32_store32_ne. lia.
Qed.

Lemma length_set_free m o f : length (set_free m o f) = length m.
Proof. apply length_store8. Qed.

Lemma length_set_len m o l : length (set_len m o l) = length m.
Proof. apply length_store32. Qed.

End MemFacts.

(** ** The assertions of [main]

    Each test of [main] is replayed on the embedding: the pointers
    returned and the values of [head] and [tail] after each step are the
    ones the source asserts. *)

Example main_test1 :
  let a1 := circalloc (preload zero_arena 0) 10 in
  let a2 := circalloc (fst a1) 8 in
  let a3 := circalloc (fst a2) 1001 in
  let f1 := free_in (snd a1) (Some (fst a3)) in
  let f2 := free_in (snd a2) f1 in
  let f3 := free_in (snd a3) f2 in
  (head (fst a1), tail (fst a1)) = (0x20, 0) /\
  (head (fst a2), tail (fst a2)) = (0x30, 0) /\
  (head (fst a3), tail (fst a3)) = (0x430, 0) /\
  ht f1 = Some (0x430, 0x20) /\ ht f2 = Some (0x430, 0x30) /\
  ht f3 = Some (0x430, 0x430).
Proof. vm_compute. repeat split. Qed.

Example main_test2 :
  let a1 := circalloc (preload zero_arena 0) 10 in
  let a2 := circalloc (fst a1) 8 in
  let a3 := circalloc (fst a2) 1001 in
  let f1 := free_in (snd a2) (Some (fst a3)) in
  let f2 := free_in (snd a1) f1 in
  let f3 := free_in (snd a3) f2 in
  ht f1 = Some (0x430, 0) /\ ht f2 = Some (0x430, 0x30) /\
  ht f3 = Some (0x430, 0x430).
Proof. vm_compute. repeat split. Qed.

Example main_test3 :
  let a1 := circalloc (preload zero_arena 0) 10 in
  let a2 := circalloc (fst a1) 8 in
  let a3 := circalloc (fst a2) 1001 in
  let f1 := free_in (snd a3) (Some (fst a3)) in
  let f2 := free_in (snd a2) f1 in
  let f3 := free_in (snd a1) f2 in
  ht f1 = Some (0x430, 0) /\ ht f2 = Some (0x430, 0) /\
  ht f3 = Some (0x430, 0x430).
Proof. vm_compute. repeat split. Qed.

Example main_test4 :
  let a1 := circalloc (preload zero_arena (BUFFSIZE - 48)) 30 in
  let a2 := circalloc (fst a1) 20 in
  let f1 := free_in (snd a1) (Some (fst a2)) in
  let f2 := free_in (snd a2) f1 in
  (head (fst a1), tail (fst a1)) = (0, BUFFSIZE - 48) /\
  (head (fst a2), tail (fst a2)) = (0x20, BUFFSIZE - 48) /\
  ht f1 = Some (0x20, 0) /\ ht f2 = Some (0x20, 0x20).
Proof. vm_compute. repeat split. Qed.

Example main_test5 :
  let a1 := circalloc (preload zero_arena (BUFFSIZE - 48)) 1000 in
  let a2 := circalloc (fst a1) 20 in
  let f1 := free_in (snd a1) (Some (fst a2)) in
  let f2 := free_in (snd a2) f1 in
  (head (fst a1), tail (fst a1)) = (0x3F0, BUFFSIZE - 48) /\
  snd a1 = Some sizeof_hdr /\
  (head (fst a2), tail (fst a2)) = (0x410, BUFFSIZE - 48) /\
  ht f1 = Some (0x410, 0x3F0) /\ ht f2 = Some (0x410, 0x410).
Proof. vm_compute. repeat split. Qed.

Example main_test6 :
  let a1 := circalloc (preload zero_arena 512) 1500 in
  let a2 := circalloc (fst a1) 250 in
  let a3 := circalloc (fst a2) 120 in
  let a4 := circalloc (fst a3) 121 in
  let a5 := circalloc (fst a4) 104 in
  let a6 := circalloc (fst a5) 88 in
  let f1 := free_in (snd a1) (Some (fst a6)) in
  let f2 := free_in (snd a3) f1 in
  let f3 := free_in (snd a2) f2 in
  let f4 := free_in (snd a6) f3 in
  (head (fst a1), tail (fst a1)) = (0x7F0, 0x200) /\
  (head (fst a2), tail (fst a2)) = (0x110, 0x200) /\
  (head (fst a3), tail (fst a3)) = (0x190, 0x200) /\
  (snd a4, head (fst a4), tail (fst a4)) = (None, 0x190, 0x200) /\
  (snd a5, head (fst a5), tail (fst a5)) = (None, 0x190, 0x200) /\
  (head (fst a6), tail (fst a6)) = (0x1F0, 0x200) /\
  ht f1 = Some (0x1F0, 0x7F0) /\ ht f2 = Some (0x1F0, 0x7F0) /\
  ht f3 = Some (0x1F0, 0x190) /\ ht f4 = Some (0x1F0, 0x1F0).
Proof. vm_compute. repeat split. Qed.

(** ** Arithmetic of [circalloc] *)

Ltac zlia := Z.div_mod_to_equations; lia.

Ltac unfold_consts :=
  unfold BUFFSIZE, sizeof_hdr, offsetof_len, HDR_FREE, HDR_INUSE, HDR_GAP in *.

Lemma u32_small (x : Z) : 0 <= x < 2 ^ 32 -> u32 x = x.
Proof. intros H. unfold u32. apply Z.mod_small. assumption. Qed.

Lemma i32_small (x : Z) : - 2 ^ 31 <= x < 2 ^ 31 -> i32 x = x.
Proof. intros H. unfold i32. rewrite Z.mod_small; lia. Qed.

Lemma land_lnot_15 (x : Z) : Z.land x (Z.lnot 15) = 16 * (x / 16).
Proof.
  rewrite <- Z.ldiff_land. change 15 with (Z.ones 4).
  rewrite Z.ldiff_ones_r, Z.shiftl_mul_pow2, Z.shiftr_div_pow2 by lia.
  change (2 ^ 4) with 16. lia.
Qed.

Lemma block_size_exact (size : Z) :
  0 <= size -> size + sizeof_hdr + 15 < 2 ^ 31 ->
  block_size size = 16 * ((size + 23) / 16).
Proof.
  intros H0 H1. unfold block_size. rewrite land_lnot_15.
  unfold_consts. replace (size + 8 + 15) with (size + 23) by lia.
  apply i32_small. zlia.
Qed.

Lemma block_size_eq (size : Z) :
  size_ok size -> block_size size = 16 * ((size + 23) / 16).
Proof.
  intros [H0 H1]. apply block_size_exact; unfold_consts; lia.
Qed.

Lemma block_size_round (size : Z) :
  size_ok size -> block_size size = round_up (size + sizeof_hdr) 16.
Proof.
  intros H. rewrite block_size_eq by assumption.
  unfold round_up, sizeof_hdr.
  replace (size + 8 + 16 - 1) with (size + 23) by lia. lia.
Qed.

Lemma block_size_bounds (size : Z) :
  size_ok size ->
  0 < block_size size /\ block_size size mod 16 = 0 /\
  size + sizeof_hdr <= block_size size <= size + sizeof_hdr + 15.
Proof.
  intros H. rewrite block_size_eq by assumption.
  destruct H as [H0 H1]. unfold_consts. zlia.
Qed.

Lemma avail_eq (st : state) :
  state_ok st -> avail st = BUFFSIZE - held st.
Proof.
  intros [Hh Ht]. unfold avail, held, u32.
  destruct (Z.leb_spec (tail st) (head st)); unfold_consts; zlia.
Qed.

Lemma wraps_true_iff (st : state) (size : Z) :
  state_ok st -> size_ok size ->
  wraps st size = true <->
  tail st <= head st /\ BUFFSIZE - head st < block_size size.
Proof.
  intros [Hh Ht] Hs. unfold wraps.
  pose proof (block_size_bounds size Hs) as (Hb & _ & Hb').
  destruct Hs as [Hs0 Hs1].
  rewrite andb_true_iff, Z.leb_le, Z.ltb_lt.
  rewrite !u32_small; [tauto | unfold_consts; lia ..].
Qed.

Lemma rem_of_wrap (st : state) (size : Z) :
  state_ok st -> wraps st size = true -> rem_of st size = BUFFSIZE - head st.
Proof.
  intros [Hh Ht] Hw. unfold rem_of. rewrite Hw.
  rewrite u32_small, i32_small; unfold_consts; lia.
Qed.

Lemma rem_of_nowrap (st : state) (size : Z) :
  wraps st size = false -> rem_of st size = 0.
Proof. intros Hw. unfold rem_of. now rewrite Hw. Qed.

Lemma rsize_bounds (st : state) (size : Z) :
  state_ok st -> size_ok size ->
  0 < rsize st size < 2 ^ 31 /\ 0 <= rem_of st size <= BUFFSIZE.
Proof.
  intros Hst Hs. unfold rsize.
  pose proof (block_size_bounds size Hs) as (Hb & _ & Hb').
  destruct (wraps st size) eqn:Hw.
  - rewrite rem_of_wrap by assumption.
    destruct Hst as [Hh Ht], Hs as [Hs0 Hs1]. unfold_consts. lia.
  - rewrite rem_of_nowrap by assumption.
    destruct Hs as [Hs0 Hs1]. unfold_consts. lia.
Qed.

(** [circalloc] fails exactly when the reservation does not leave a byte
    free, and then leaves the state alone. *)
Lemma circalloc_none_iff (st : state) (size : Z) :
  state_ok st -> size_ok size ->
  snd (circalloc st size) = None <-> avail st <= rsize st size.
Proof.
  intros Hst Hs. pose proof (rsize_bounds st size Hst Hs) as [Hr _].
  unfold circalloc. fold (rsize st size).
  rewrite (u32_small (rsize st size)) by lia.
  destruct (Z.leb_spec (avail st) (rsize st size)); simpl;
    split; (congruence || lia).
Qed.

Lemma circalloc_none_state (st : state) (size : Z) :
  snd (circalloc st size) = None -> fst (circalloc st size) = st.
Proof.
  unfold circalloc.
  destruct (avail st <=? u32 (block_size size + rem_of st size));
    simpl; [reflexivity | discriminate].
Qed.

(** The state after a successful call that does not wrap. *)
Lemma circalloc_nowrap (st : state) (size : Z) :
  state_ok st -> size_ok size ->
  wraps st size = false -> rsize st size < avail st ->
  circalloc st size =
  (mkState (Mem.set_len (Mem.set_free (buffer st) (head st) HDR_INUSE)
                        (head st) (block_size size))
           ((head st + block_size size) mod BUFFSIZE) (tail st),
   Some (head st + sizeof_hdr)).
Proof.
  intros Hst Hs Hw Hav.
  pose proof (rsize_bounds st size Hst Hs) as [Hr _].
  pose proof (block_size_bounds size Hs) as (Hb & _ & Hb').
  unfold circalloc. fold (rsize st size).
  rewrite (u32_small (rsize st size)) by lia.
  destruct (Z.leb_spec (avail st) (rsize st size)); [lia |].
  unfold offset_of. rewrite Hw, (rem_of_nowrap _ _ Hw).
  destruct Hst as [Hh Ht], Hs as [Hs0 Hs1].
  unfold circallocblock. change (u32 0 =? 0) with true. cbv iota.
  rewrite !u32_small by (unfold_consts; lia).
  destruct (Z.eqb_spec (block_size size) 0); [lia |].
  rewrite i32_small by (unfold_consts; lia). reflexivity.
Qed.

(** The state after a successful call that wraps: a gap header at the
    old [head], the header of the block at offset 0. *)
Lemma circalloc_wrap (st : state) (size : Z) :
  state_ok st -> size_ok size ->
  wraps st size = true -> rsize st size < avail st ->
  circalloc st size =
  (mkState (Mem.set_len
              (Mem.set_free
                 (Mem.set_len (Mem.set_free (buffer st) (head st) HDR_GAP)
                              (head st) (BUFFSIZE - head st))
                 0 HDR_INUSE)
              0 (block_size size))
           (block_size size) (tail st),
   Some sizeof_hdr).
Proof.
  intros Hst Hs Hw Hav.
  pose proof (rsize_bounds st size Hst Hs) as [Hr _].
  pose proof (block_size_bounds size Hs) as (Hb & _ & Hb').
  pose proof (avail_eq st Hst) as Hae.
  assert (0 <= held st < BUFFSIZE)
    by (unfold held; apply Z.mod_pos_bound; reflexivity).
  unfold circalloc. fold (rsize st size).
  rewrite (u32_small (rsize st size)) by lia.
  destruct (Z.leb_spec (avail st) (rsize st size)); [lia |].
  unfold rsize in *. unfold offset_of. rewrite Hw.
  rewrite (rem_of_wrap _ _ Hst Hw) in *.
  destruct Hst as [Hh Ht], Hs as [Hs0 Hs1].
  unfold circallocblock.
  rewrite !(u32_small (BUFFSIZE - head st)) by (unfold_consts; lia).
  rewrite (u32_small (block_size size)) by (unfold_consts; lia).
  destruct (Z.eqb_spec (BUFFSIZE - head st) 0); [lia |].
  destruct (Z.eqb_spec (block_size size) 0); [lia |].
  cbn [buffer head tail].
  replace (head st + (BUFFSIZE - head st)) with BUFFSIZE by lia.
  replace (u32 BUFFSIZE mod BUFFSIZE) with 0 by reflexivity.
  rewrite Z.add_0_l, u32_small by (unfold_consts; lia).
  rewrite Z.mod_small by (unfold_consts; lia). reflexivity.
Qed.

(** ** Geometry of the queue *)

Lemma total_cons (b : block) (q : list block) :
  total (b :: q) = blen b + total q.
Proof. reflexivity. Qed.

Lemma total_app (q1 q2 : list block) :
  total (q1 ++ q2) = total q1 + total q2.
Proof. induction q1 as [| b q1 IH]; simpl; lia. Qed.

Lemma total_nonneg (q : list block) : lens_pos q -> 0 <= total q.
Proof.
  induction 1 as [| b q Hb _ IH]; simpl; lia.
Qed.

Lemma total_pos (q : list block) : lens_pos q -> q <> [] -> 0 < total q.
Proof.
  intros Hq Hne. destruct q as [| b q]; [congruence |].
  inversion Hq as [| ? ? Hb Hq']; subst.
  pose proof (total_nonneg q Hq'). rewrite total_cons. lia.
Qed.

Lemma block_ok_lens_pos (m : list Z) (q : list block) :
  Forall (block_ok m) q -> lens_pos q.
Proof.
  unfold lens_pos. intros H. eapply Forall_impl; [exact H |].
  intros b Hb. apply Hb.
Qed.

Lemma layout_app (t h h' : Z) (q1 q2 : list block) :
  layout t h q1 -> layout h h' q2 -> layout t h' (q1 ++ q2).
Proof.
  revert t. induction q1 as [| b q1 IH]; simpl; intros t H1 H2.
  - now subst.
  - destruct H1 as [Hb H1]. split; [assumption | now apply IH].
Qed.

Lemma layout_head (t h : Z) (q : list block) :
  0 <= t < BUFFSIZE -> layout t h q -> h = (t + total q) mod BUFFSIZE.
Proof.
  revert t. induction q as [| b q IH]; simpl; intros t Ht Hl.
  - subst. rewrite Z.add_0_r, Z.mod_small; [reflexivity | assumption].
  - destruct Hl as [_ Hl]. apply IH in Hl.
    + rewrite Hl, Zplus_mod_idemp_l. f_equal. lia.
    + apply Z.mod_pos_bound. reflexivity.
Qed.

(** Every block starts at a distance from [t] that is below the total
    length. *)
Lemma layout_In (t h : Z) (q : list block) (b : block) :
  0 <= t < BUFFSIZE -> lens_pos q -> layout t h q -> In b q ->
  exists d, 0 <= d /\ d + blen b <= total q /\
            bstart b = (t + d) mod BUFFSIZE.
Proof.
  revert t. induction q as [| c q IH]; intros t Ht Hp Hl Hin.
  - contradiction.
  - inversion Hp as [| ? ? Hc Hq]; subst. destruct Hl as [Hs Hl].
    pose proof (total_nonneg q Hq) as Htot. rewrite total_cons.
    simpl in Hin.
    destruct Hin as [-> | Hin].
    + exists 0. rewrite Z.add_0_r, Z.mod_small by assumption.
      repeat split; [lia | lia | assumption].
    + destruct (IH ((t + blen c) mod BUFFSIZE)) as (d & Hd0 & Hd1 & Hd2);
        [apply Z.mod_pos_bound; reflexivity | assumption ..|].
      exists (blen c + d). repeat split; [lia | lia |].
      rewrite Hd2, Zplus_mod_idemp_l. f_equal. lia.
Qed.

Lemma layout_empty_iff (t h : Z) (q : list block) :
  0 <= t < BUFFSIZE -> lens_pos q -> total q < BUFFSIZE ->
  layout t h q -> (h = t <-> q = []).
Proof.
  intros Ht Hp Htot Hl. split.
  - intros ->. destruct q as [| b q]; [reflexivity | exfalso].
    pose proof (total_pos (b :: q) Hp ltac:(discriminate)) as Hpos.
    pose proof (layout_head _ _ _ Ht Hl) as Hh.
    unfold BUFFSIZE in *. zlia.
  - intros ->. simpl in Hl. congruence.
Qed.

Lemma layout_mark (addr t h : Z) (q : list block) :
  layout t h (mark addr q) <-> layout t h q.
Proof.
  revert t. induction q as [| b q IH]; simpl; intros t; [tauto |].
  rewrite IH.
  destruct (bstart b =? addr - sizeof_hdr); simpl; tauto.
Qed.

Lemma total_mark (addr : Z) (q : list block) : total (mark addr q) = total q.
Proof.
  induction q as [| b q IH]; [reflexivity |].
  cbn [mark List.map]. fold (mark addr q). rewrite !total_cons, IH.
  destruct (bstart b =? addr - sizeof_hdr); reflexivity.
Qed.

(** ** Headers of the queue under the writes of the allocator *)

Lemma block_ok_write (m : list Z) (o f l : Z) (b : block) :
  block_ok m b -> apart o (bstart b) ->
  block_ok (Mem.set_len (Mem.set_free m o f) o l) b.
Proof.
  intros (Hs & Hl & Hf & Hmf & Hml) Hap.
  repeat split; try tauto.
  - rewrite hdr_free_set_len_apart, hdr_free_set_free_apart; [assumption | | assumption].
    unfold apart, sizeof_hdr in Hap. lia.
  - rewrite hdr_len_set_len_apart, hdr_len_set_free_apart; assumption.
Qed.

Lemma block_ok_new (m : list Z) (o f l : Z) :
  length m = Z.to_nat BUFFSIZE ->
  0 <= o < BUFFSIZE -> o mod 16 = 0 ->
  0 < l < 2 ^ 32 -> l mod 16 = 0 ->
  f = HDR_FREE \/ f = HDR_INUSE \/ f = HDR_GAP ->
  block_ok (Mem.set_len (Mem.set_free m o f) o l) (mkBlock o l f).
Proof.
  intros Hlen Ho Ho16 Hl Hl16 Hf.
  assert (o + 16 <= BUFFSIZE) by (unfold BUFFSIZE in *; zlia).
  repeat split; simpl; try tauto; try lia.
  - rewrite hdr_free_set_len_same, hdr_free_set_free; [reflexivity | |].
    + rewrite Hlen. unfold BUFFSIZE in *. lia.
    + unfold_consts. lia.
  - rewrite hdr_len_set_len; [reflexivity | lia | | lia].
    rewrite length_set_free, Hlen. unfold_consts. lia.
Qed.

Lemma blocks_ok_write (m : list Z) (o f l : Z) (q : list block) :
  Forall (block_ok m) q ->
  (forall b, In b q -> apart o (bstart b)) ->
  Forall (block_ok (Mem.set_len (Mem.set_free m o f) o l)) q.
Proof.
  intros Hq Hap. rewrite List.Forall_forall in *.
  intros b Hb. apply block_ok_write; auto.
Qed.

(** A header written at an aligned offset at distance [e] from [t],
    beyond every block of the queue and before the queue comes round,
    overlaps no block header. *)
Lemma queue_apart (t h e : Z) (m : list Z) (q : list block) (b : block) :
  0 <= t < BUFFSIZE -> layout t h q -> Forall (block_ok m) q ->
  total q <= e < BUFFSIZE -> ((t + e) mod BUFFSIZE) mod 16 = 0 ->
  In b q ->
  apart ((t + e) mod BUFFSIZE) (bstart b).
Proof.
  intros Ht Hl Hq He He16 Hin.
  destruct (layout_In t h q b Ht (block_ok_lens_pos m q Hq) Hl Hin)
    as (d & Hd0 & Hd1 & Hd2).
  rewrite List.Forall_forall in Hq.
  destruct (Hq b Hin) as ((_ & H16) & (Hlen & _) & _).
  unfold apart in *. rewrite Hd2 in *. unfold_consts. zlia.
Qed.

(** ** Lists of blocks *)

Lemma gaps_ok_app (q1 q2 : list block) :
  gaps_ok q1 -> gaps_ok q2 -> gaps_ok (q1 ++ q2).
Proof.
  induction q1 as [| b q1 IH]; simpl; intros H1 H2; [assumption |].
  destruct H1 as [Hb H1]. split; [| now apply IH].
  intros Hg. specialize (Hb Hg). destruct q1; [contradiction | exact Hb].
Qed.

Lemma front_ok_app (q1 q2 : list block) :
  front_ok q1 -> gaps_ok q1 -> front_ok q2 -> q1 <> [] ->
  front_ok (q1 ++ q2).
Proof.
  intros [-> | (b & Hb & Hf)] Hg H2 Hne; [congruence |].
  right. exists b. split; [| assumption].
  destruct q1 as [| c q1]; [discriminate |].
  simpl in *. destruct (bflag c =? HDR_GAP); [| assumption].
  destruct q1; [discriminate | exact Hb].
Qed.

Lemma live_app (q1 q2 : list block) : live (q1 ++ q2) = live q1 ++ live q2.
Proof. unfold live. now rewrite List.filter_app, List.map_app. Qed.

Lemma inv_state_ok (st : state) (ptrs : list Z) (q : list block) :
  inv st ptrs q -> state_ok st.
Proof. intros H. split; [apply (inv_head _ _ _ H) | apply (inv_tail _ _ _ H)]. Qed.

Lemma inv_lens_pos (st : state) (ptrs : list Z) (q : list block) :
  inv st ptrs q -> lens_pos q.
Proof. intros H. eapply block_ok_lens_pos, inv_blocks, H. Qed.

Lemma inv_head_eq (st : state) (ptrs : list Z) (q : list block) :
  inv st ptrs q -> head st = (tail st + total q) mod BUFFSIZE.
Proof.
  intros H. apply layout_head; [apply (inv_tail _ _ _ H) | apply (inv_layout _ _ _ H)].
Qed.

(** The bytes between [tail] and [head] are the bytes of the queue. *)
Lemma inv_held (st : state) (ptrs : list Z) (q : list block) :
  inv st ptrs q -> held st = total q.
Proof.
  intros H. unfold held. rewrite (inv_head_eq _ _ _ H).
  pose proof (inv_total _ _ _ H). pose proof (total_nonneg q (inv_lens_pos _ _ _ H)).
  destruct (inv_tail _ _ _ H) as [Ht _]. unfold_consts. zlia.
Qed.

(** ** [circalloc] keeps the invariant *)

Lemma new_blocks_none (st : state) (size : Z) :
  snd (circalloc st size) = None -> new_blocks st size = [].
Proof. intros H. unfold new_blocks. now rewrite H. Qed.

Lemma new_blocks_nowrap (st : state) (size : Z) :
  state_ok st -> size_ok size ->
  wraps st size = false -> rsize st size < avail st ->
  new_blocks st size = [mkBlock (head st) (block_size size) HDR_INUSE].
Proof.
  intros Hst Hs Hw Hav. unfold new_blocks.
  rewrite circalloc_nowrap, Hw by assumption. cbn [snd app].
  do 2 f_equal. lia.
Qed.

Lemma new_blocks_wrap (st : state) (size : Z) :
  state_ok st -> size_ok size ->
  wraps st size = true -> rsize st size < avail st ->
  new_blocks st size =
  [mkBlock (head st) (BUFFSIZE - head st) HDR_GAP;
   mkBlock 0 (block_size size) HDR_INUSE].
Proof.
  intros Hst Hs Hw Hav. unfold new_blocks.
  rewrite circalloc_wrap, Hw, rem_of_wrap by assumption. reflexivity.
Qed.

Lemma inv_alloc_nowrap (st : state) (ptrs : list Z) (q : list block) (size : Z) :
  inv st ptrs q -> size_ok size ->
  wraps st size = false -> rsize st size < avail st ->
  inv (fst (circalloc st size))
      (ptrs_after (snd (circalloc st size)) ptrs)
      (q ++ new_blocks st size).
Proof.
  intros Hinv Hs Hw Hav.
  pose proof (inv_state_ok _ _ _ Hinv) as Hst.
  rewrite new_blocks_nowrap, circalloc_nowrap by assumption.
  cbn [fst snd ptrs_after].
  pose proof (block_size_bounds size Hs) as (Hb & Hb16 & Hb').
  pose proof (inv_held _ _ _ Hinv) as Hheld.
  pose proof (avail_eq st Hst) as Hae.
  pose proof (inv_head_eq _ _ _ Hinv) as Hhd.
  destruct Hinv as [Hlen [Hh Hh16] [Ht Ht16] Hlay Htot Hblk Hgap Hfront Hptrs].
  unfold rsize in Hav. rewrite (rem_of_nowrap _ _ Hw) in Hav.
  assert (Hbs32 : block_size size < 2 ^ 32)
    by (destruct Hs; unfold_consts; lia).
  split; cbn [buffer head tail].
  - now rewrite length_set_len, length_set_free.
  - unfold_consts. zlia.
  - tauto.
  - eapply layout_app; [eassumption |]. simpl. tauto.
  - rewrite total_app, total_cons. simpl. lia.
  - apply Forall_app. split.
    + apply blocks_ok_write; [assumption |]. intros b Hb0.
      rewrite Hhd. eapply queue_apart; eauto; [lia | now rewrite <- Hhd].
    + constructor; [| constructor].
      apply block_ok_new; auto; lia.
  - apply gaps_ok_app; [assumption |]. simpl. split; [| exact I].
    unfold_consts. discriminate.
  - destruct q as [| b0 q0].
    + right. eexists. split; [reflexivity | reflexivity].
    + apply front_ok_app; try assumption; [| discriminate].
      right. eexists. split; reflexivity.
  - intros p. rewrite live_app. simpl. rewrite in_app_iff, (Hptrs p).
    simpl. tauto.
Qed.

Lemma inv_alloc_wrap (st : state) (ptrs : list Z) (q : list block) (size : Z) :
  inv st ptrs q -> size_ok size ->
  wraps st size = true -> rsize st size < avail st ->
  inv (fst (circalloc st size))
      (ptrs_after (snd (circalloc st size)) ptrs)
      (q ++ new_blocks st size).
Proof.
  intros Hinv Hs Hw Hav.
  pose proof (inv_state_ok _ _ _ Hinv) as Hst.
  rewrite new_blocks_wrap, circalloc_wrap by assumption.
  cbn [fst snd ptrs_after].
  pose proof (block_size_bounds size Hs) as (Hb & Hb16 & Hb').
  pose proof (inv_held _ _ _ Hinv) as Hheld.
  pose proof (avail_eq st Hst) as Hae.
  pose proof (inv_head_eq _ _ _ Hinv) as Hhd.
  pose proof (total_nonneg q (inv_lens_pos _ _ _ Hinv)) as Htot0.
  destruct Hinv as [Hlen [Hh Hh16] [Ht Ht16] Hlay Htot Hblk Hgap Hfront Hptrs].
  unfold rsize in Hav. rewrite (rem_of_wrap _ _ Hst Hw) in Hav.
  assert (Hbs32 : block_size size < 2 ^ 32)
    by (destruct Hs; unfold_consts; lia).
  assert (Hh0 : 16 <= head st) by (unfold_consts; zlia).
  assert (Hzero : 0 = (tail st + (total q + (BUFFSIZE - head st))) mod BUFFSIZE)
    by (unfold_consts; zlia).
  split; cbn [buffer head tail].
  - repeat (rewrite length_set_len || rewrite length_set_free). assumption.
  - unfold_consts. zlia.
  - tauto.
  - eapply layout_app; [eassumption |]. simpl.
    replace ((head st + (BUFFSIZE - head st)) mod BUFFSIZE) with 0
      by (unfold_consts; zlia).
    rewrite Z.add_0_l, Z.mod_small by (unfold_consts; lia). tauto.
  - rewrite total_app, !total_cons. simpl. lia.
  - apply Forall_app. split.
    + apply blocks_ok_write.
      * apply blocks_ok_write; [assumption |]. intros b Hb0.
        rewrite Hhd. eapply queue_apart; eauto; [lia | now rewrite <- Hhd].
      * intros b Hb0. rewrite Hzero.
        eapply queue_apart; eauto; [lia | now rewrite <- Hzero].
    + constructor; [| constructor; [| constructor]].
      * apply block_ok_write.
        -- apply block_ok_new; auto; unfold_consts; zlia.
        -- unfold apart. simpl. unfold_consts. lia.
      * apply block_ok_new; auto;
          try (rewrite length_set_len, length_set_free; assumption);
          unfold_consts; lia.
  - apply gaps_ok_app; [assumption |]. simpl. repeat split.
    + unfold_consts. discriminate.
    + unfold_consts. discriminate.
  - destruct q as [| b0 q0].
    + right. eexists. split; reflexivity.
    + apply front_ok_app; try assumption; [| discriminate].
      right. eexists. split; reflexivity.
  - intros p. rewrite live_app. simpl. rewrite in_app_iff, (Hptrs p).
    simpl. tauto.
Qed.

Lemma inv_alloc (st : state) (ptrs : list Z) (q : list block) (size : Z) :
  inv st ptrs q -> size_ok size ->
  inv (fst (circalloc st size))
      (ptrs_after (snd (circalloc st size)) ptrs)
      (q ++ new_blocks st size).
Proof.
  intros Hinv Hs.
  pose proof (inv_state_ok _ _ _ Hinv) as Hst.
  destruct (Z.le_gt_cases (avail st) (rsize st size)) as [Hle | Hgt].
  - apply (circalloc_none_iff st size Hst Hs) in Hle.
    rewrite (new_blocks_none _ _ Hle), (circalloc_none_state _ _ Hle), Hle.
    rewrite app_nil_r. exact Hinv.
  - destruct (wraps st size) eqn:Hw.
    + now apply inv_alloc_wrap.
    + now apply inv_alloc_nowrap.
Qed.

(** ** Releasing a block *)

Lemma live_In (p : Z) (q : list block) :
  In p (live q) <->
  exists b, In b q /\ bflag b = HDR_INUSE /\ bstart b = p - sizeof_hdr.
Proof.
  unfold live. rewrite List.in_map_iff. split.
  - intros (b & Hp & Hb). apply List.filter_In in Hb as [Hb Hf].
    exists b. repeat split; [assumption | lia | lia].
  - intros (b & Hb & Hf & Hs). exists b. split; [lia |].
    apply List.filter_In. split; [assumption | lia].
Qed.

Lemma In_mark (addr : Z) (q : list block) (b : block) :
  In b (mark addr q) <->
  exists c, In c q /\
    b = if bstart c =? addr - sizeof_hdr
        then mkBlock (bstart c) (blen c) HDR_FREE else c.
Proof.
  unfold mark. rewrite List.in_map_iff. split.
  - intros (c & Hc & Hin). exists c. split; [assumption | now symmetry].
  - intros (c & Hin & Hc). exists c. split; [now symmetry | assumption].
Qed.

Lemma live_mark (addr p : Z) (q : list block) :
  In p (live (mark addr q)) <-> In p (live q) /\ p <> addr.
Proof.
  rewrite !live_In. split.
  - intros (b & Hb & Hf & Hs). apply In_mark in Hb as (c & Hc & ->).
    destruct (Z.eqb_spec (bstart c) (addr - sizeof_hdr)) as [He | Hn].
    + simpl in Hf. unfold_consts. discriminate.
    + split; [exists c; tauto | lia].
  - intros ((b & Hb & Hf & Hs) & Hne). exists b. split; [| tauto].
    apply In_mark. exists b. split; [assumption |].
    destruct (Z.eqb_spec (bstart b) (addr - sizeof_hdr)); [lia | reflexivity].
Qed.

Lemma gaps_ok_mark (addr : Z) (q : list block) :
  gaps_ok q -> gaps_ok (mark addr q).
Proof.
  induction q as [| b q IH]; [trivial |].
  cbn [mark List.map gaps_ok]. fold (mark addr q).
  intros [Hb Hq]. split; [| now apply IH].
  destruct (Z.eqb_spec (bstart b) (addr - sizeof_hdr)) as [He | Hn]; simpl.
  - unfold_consts. discriminate.
  - intros Hg. specialize (Hb Hg). destruct q as [| c q]; [contradiction |].
    cbn [mark List.map]. destruct (bstart c =? addr - sizeof_hdr); simpl.
    + unfold_consts. discriminate.
    + assumption.
Qed.

Lemma blocks_ok_mark (m : list Z) (addr : Z) (q : list block) :
  length m = Z.to_nat BUFFSIZE ->
  (addr - sizeof_hdr) mod 16 = 0 ->
  Forall (block_ok m) q ->
  Forall (block_ok (Mem.set_free m (addr - sizeof_hdr) HDR_FREE)) (mark addr q).
Proof.
  intros Hlen H16 Hq. rewrite List.Forall_forall in *.
  intros b Hb. apply In_mark in Hb as (c & Hc & ->).
  destruct (Hq c Hc) as ((Hs & Hs16) & Hl & Hf & Hmf & Hml).
  destruct (Z.eqb_spec (bstart c) (addr - sizeof_hdr)) as [He | Hn].
  - rewrite <- He. repeat split; simpl; try tauto.
    + apply hdr_free_set_free; [| unfold_consts; lia].
      rewrite Hlen. unfold_consts. lia.
    + now rewrite hdr_len_set_free_same.
  - repeat split; try tauto.
    + rewrite hdr_free_set_free_apart; [assumption | congruence].
    + rewrite hdr_len_set_free_apart; [assumption |].
      unfold apart. unfold_consts. zlia.
Qed.

(** ** Retiring blocks at the front *)

Lemma retired_retire (q : list block) : retired q ++ retire q = q.
Proof.
  assert (H : forall n q, (length q <= n)%nat -> retired q ++ retire q = q).
  { clear q. induction n as [| n IH]; intros q Hn.
    - destruct q; [reflexivity | simpl in Hn; lia].
    - destruct q as [| b q]; [reflexivity |]. simpl in Hn. simpl.
      destruct (bflag b =? HDR_FREE).
      + simpl. f_equal. apply IH. lia.
      + destruct (bflag b =? HDR_GAP); [| reflexivity].
        destruct q as [| c q]; [reflexivity |].
        destruct (bflag c =? HDR_FREE); [| reflexivity].
        simpl. do 2 f_equal. apply IH. simpl in Hn. lia. }
  now apply (H (length q)).
Qed.

Lemma retired_flags (q : list block) :
  Forall (fun b => bflag b = HDR_FREE \/ bflag b = HDR_GAP) (retired q).
Proof.
  assert (H : forall n q, (length q <= n)%nat ->
    Forall (fun b => bflag b = HDR_FREE \/ bflag b = HDR_GAP) (retired q)).
  { clear q. induction n as [| n IH]; intros q Hn.
    - destruct q; [constructor | simpl in Hn; lia].
    - destruct q as [| b q]; [constructor |]. simpl in Hn. simpl.
      destruct (Z.eqb_spec (bflag b) HDR_FREE).
      + constructor; [tauto | apply IH; lia].
      + destruct (Z.eqb_spec (bflag b) HDR_GAP); [| constructor].
        destruct q as [| c q]; [constructor |].
        destruct (Z.eqb_spec (bflag c) HDR_FREE); [| constructor].
        constructor; [tauto |]. constructor; [tauto |].
        apply IH. simpl in Hn. lia. }
  now apply (H (length q)).
Qed.

Lemma live_retired (q : list block) : live (retired q) = [].
Proof.
  pose proof (retired_flags q) as H. unfold live.
  induction H as [| b r Hb _ IH]; [reflexivity |]. simpl.
  destruct (Z.eqb_spec (bflag b) HDR_INUSE); [| exact IH].
  unfold_consts. lia.
Qed.

Lemma live_retire (q : list block) : live (retire q) = live q.
Proof.
  rewrite <- (retired_retire q) at 2. now rewrite live_app, live_retired.
Qed.

Lemma gaps_ok_suffix (q1 q2 : list block) : gaps_ok (q1 ++ q2) -> gaps_ok q2.
Proof.
  induction q1 as [| b q1 IH]; simpl; [trivial |]. intros [_ H]. now apply IH.
Qed.

Lemma gaps_ok_retire (q : list block) : gaps_ok q -> gaps_ok (retire q).
Proof.
  intros H. rewrite <- (retired_retire q) in H. now apply gaps_ok_suffix in H.
Qed.

Lemma blocks_ok_retire (m : list Z) (q : list block) :
  Forall (block_ok m) q -> Forall (block_ok m) (retire q).
Proof.
  intros H. rewrite <- (retired_retire q) in H.
  apply Forall_app in H. tauto.
Qed.

Lemma total_retire (q : list block) :
  lens_pos q -> total q = total (retired q) + total (retire q) /\
                0 <= total (retired q) /\ 0 <= total (retire q).
Proof.
  intros H. rewrite <- (retired_retire q) in H at 1.
  apply Forall_app in H as [H1 H2].
  rewrite <- (retired_retire q) at 1. rewrite total_app.
  split; [reflexivity |]. split; now apply total_nonneg.
Qed.

Lemma front_ok_retire (m : list Z) (q : list block) :
  Forall (block_ok m) q -> gaps_ok q -> front_ok (retire q).
Proof.
  assert (H : forall n q, (length q <= n)%nat ->
    Forall (block_ok m) q -> gaps_ok q -> front_ok (retire q)).
  { clear q. induction n as [| n IH]; intros q Hn Hq Hg.
    - destruct q; [now left | simpl in Hn; lia].
    - destruct q as [| b q]; [now left |]. simpl in Hn.
      inversion Hq as [| ? ? Hb Hq']; subst.
      destruct Hg as [Hgb Hg]. simpl.
      destruct (Z.eqb_spec (bflag b) HDR_FREE) as [Hf | Hf].
      { apply IH; [lia | assumption ..]. }
      destruct (Z.eqb_spec (bflag b) HDR_GAP) as [Hgp | Hgp].
      + specialize (Hgb Hgp). destruct q as [| c q]; [contradiction |].
        inversion Hq' as [| ? ? Hc Hq'']; subst. destruct Hg as [_ Hg].
        destruct (Z.eqb_spec (bflag c) HDR_FREE) as [Hcf | Hcf].
        { apply IH; [simpl in Hn; lia | assumption ..]. }
        right. exists c. simpl.
        destruct (Z.eqb_spec (bflag b) HDR_GAP); [| contradiction].
        split; [reflexivity |].
        destruct Hc as (_ & _ & Hfl & _). tauto.
      + right. exists b. simpl.
        destruct (Z.eqb_spec (bflag b) HDR_GAP); [contradiction |].
        split; [reflexivity |].
        destruct Hb as (_ & _ & Hfl & _). tauto. }
  now apply (H (length q)).
Qed.

(** ** The loop of [circfree] *)

Lemma block_len_bound (m : list Z) (q : list block) (b : block) :
  Forall (block_ok m) q -> In b q -> 0 < blen b <= total q.
Proof.
  intros Hq Hin. pose proof (block_ok_lens_pos m q Hq) as Hp.
  induction q as [| c q IH]; [contradiction |].
  inversion Hq as [| ? ? Hc Hq']; subst. inversion Hp as [| ? ? Hc' Hp']; subst.
  rewrite total_cons. pose proof (total_nonneg q Hp').
  destruct Hin as [-> | Hin]; [lia |].
  specialize (IH Hq' Hin Hp'). lia.
Qed.

(** From a well-formed queue the loop ends within one iteration per
    block, with [tail] at the first block that stays. *)
Lemma free_loop_retire (m : list Z) (h : Z) :
  forall (n : nat) (q : list block) (t : Z) (fuel : nat),
  (length q <= n)%nat -> (length q <= fuel)%nat ->
  0 <= t < BUFFSIZE -> layout t h q -> Forall (block_ok m) q ->
  gaps_ok q -> total q < BUFFSIZE -> q <> [] ->
  free_loop fuel m h t t None = Some (start_of (retire q) h) /\
  layout (start_of (retire q) h) h (retire q).
Proof.
  induction n as [| n IH]; intros q t fuel Hn Hfuel Ht Hlay Hq Hg Htot Hne.
  { destruct q; [congruence | simpl in Hn; lia]. }
  destruct q as [| b q]; [congruence |]. clear Hne.
  destruct fuel as [| fuel]; [simpl in Hfuel; lia |].
  simpl in Hn, Hfuel.
  pose proof (block_ok_lens_pos m _ Hq) as Hpos.
  pose proof (block_len_bound m _ b Hq (or_introl eq_refl)) as Hbl.
  inversion Hq as [| ? ? Hb Hq']; subst.
  inversion Hpos as [| ? ? _ Hpos']; subst.
  destruct Hlay as [Hbs Hlay]. destruct Hg as [Hgb Hg]. subst t.
  destruct Hb as (_ & _ & Hfl & Hmf & Hml).
  rewrite total_cons in Htot. pose proof (total_nonneg q Hpos') as Htq.
  assert (Ht2 : 0 <= (bstart b + blen b) mod BUFFSIZE < BUFFSIZE)
    by (apply Z.mod_pos_bound; reflexivity).
  assert (Hu : u32 (bstart b + blen b) = bstart b + blen b)
    by (apply u32_small; unfold_consts; lia).
  cbn [free_loop]. rewrite Hmf, Hml, Hu.
  destruct Hfl as [Hf | [Hf | Hf]]; rewrite Hf; cbn [retire]; rewrite Hf.
  - (* the block at [tail] is free *)
    change (HDR_FREE =? HDR_INUSE) with false.
    change (HDR_FREE =? HDR_GAP) with false.
    change (HDR_FREE =? HDR_FREE) with true. cbv iota beta.
    pose proof (layout_empty_iff _ _ q Ht2 Hpos' ltac:(lia) Hlay) as Hemp.
    destruct (Z.eqb_spec h ((bstart b + blen b) mod BUFFSIZE)) as [He | Hne].
    + apply Hemp in He. subst q. simpl in *. subst h. tauto.
    + apply IH; try assumption; try lia.
      intros ->. apply Hne. simpl in Hlay. congruence.
  - (* the block at [tail] is in use *)
    change (HDR_INUSE =? HDR_INUSE) with true.
    change (HDR_INUSE =? HDR_FREE) with false.
    change (HDR_INUSE =? HDR_GAP) with false. cbv iota.
    cbn [start_of layout]. tauto.
  - (* a gap block at [tail] *)
    change (HDR_GAP =? HDR_INUSE) with false.
    change (HDR_GAP =? HDR_FREE) with false.
    change (HDR_GAP =? HDR_GAP) with true. cbv iota beta.
    specialize (Hgb Hf). destruct q as [| c q]; [contradiction |].
    assert (Hht : h <> bstart b).
    { pose proof (layout_head _ _ (c :: q) Ht2 Hlay) as Hh.
      pose proof (total_pos (c :: q) Hpos' ltac:(discriminate)).
      rewrite Hh. unfold_consts. zlia. }
    destruct (Z.eqb_spec h (bstart b)); [contradiction |].
    destruct fuel as [| fuel]; [simpl in Hfuel; lia |].
    simpl in Hn, Hfuel.
    pose proof (block_len_bound m _ c Hq' (or_introl eq_refl)) as Hcl.
    inversion Hq' as [| ? ? Hc Hq'']; subst.
    inversion Hpos' as [| ? ? _ Hpos'']; subst.
    destruct Hlay as [Hcs Hlay]. destruct Hg as [_ Hg].
    destruct Hc as (_ & _ & Hcfl & Hcmf & Hcml).
    rewrite total_cons in Htot, Htq, Hcl.
    pose proof (total_nonneg q Hpos'') as Htq'.
    rewrite <- Hcs in *.
    assert (Ht3 : 0 <= (bstart c + blen c) mod BUFFSIZE < BUFFSIZE)
      by (apply Z.mod_pos_bound; reflexivity).
    cbn [free_loop]. rewrite Hcmf, Hcml, Hml, Hu, <- Hcs.
    rewrite (u32_small (bstart c + blen c)) by (unfold_consts; lia).
    destruct Hcfl as [Hcf | [Hcf | Hcf]]; [| | contradiction]; rewrite Hcf.
    + change (HDR_FREE =? HDR_INUSE) with false.
      change (HDR_FREE =? HDR_GAP) with false.
      change (HDR_FREE =? HDR_FREE) with true. cbv iota beta.
      pose proof (layout_empty_iff _ _ q Ht3 Hpos'' ltac:(lia) Hlay) as Hemp.
      destruct (Z.eqb_spec h ((bstart c + blen c) mod BUFFSIZE)) as [He | Hne].
      * apply Hemp in He. subst q. simpl in *. subst h. tauto.
      * apply IH; try assumption; try lia.
        intros ->. apply Hne. simpl in Hlay. congruence.
    + change (HDR_INUSE =? HDR_INUSE) with true.
      change (HDR_INUSE =? HDR_FREE) with false. cbv iota.
      cbn [start_of layout]. rewrite <- Hcs. tauto.
Qed.

Lemma free_loop_S (fuel : nat) (m : list Z) (h tl meta : Z)
    (gmeta : option Z) :
  free_loop (S fuel) m h tl meta gmeta =
  let f := Mem.hdr_free m meta in
  if f =? HDR_INUSE then Some tl
  else
    let '(tl', meta', gmeta') :=
      if f =? HDR_GAP then
        let gtail := u32 (tl + Mem.hdr_len m meta) mod BUFFSIZE in
        (tl, gtail, Some meta)
      else if f =? HDR_FREE then
        let tl1 := match gmeta with
                   | Some g => u32 (tl + Mem.hdr_len m g) mod BUFFSIZE
                   | None => tl
                   end in
        let tl2 := u32 (tl1 + Mem.hdr_len m meta) mod BUFFSIZE in
        (tl2, tl2, None)
      else (tl, meta, gmeta) in
    if h =? tl' then Some tl'
    else free_loop fuel m h tl' meta' gmeta'.
Proof. reflexivity. Qed.

(** More fuel does not change a result. *)
Lemma free_loop_mono (m : list Z) (h : Z) (fuel : nat) :
  forall (tl meta : Z) (gmeta : option Z) (r : Z),
  free_loop fuel m h tl meta gmeta = Some r ->
  free_loop (S fuel) m h tl meta gmeta = Some r.
Proof.
  induction fuel as [| fuel IH]; intros tl meta gmeta r H; [discriminate |].
  rewrite free_loop_S in H. rewrite free_loop_S. cbv zeta in *.
  destruct (Mem.hdr_free m meta =? HDR_INUSE); [assumption |].
  revert H.
  match goal with
  | |- context [match ?e with (_, _) => _ end] =>
      destruct e as [[tl' meta'] gmeta']
  end.
  destruct (h =? tl'); [trivial |]. apply IH.
Qed.

Lemma free_loop_mono_le (m : list Z) (h : Z) (fuel fuel' : nat)
    (tl meta : Z) (gmeta : option Z) (r : Z) :
  (fuel <= fuel')%nat ->
  free_loop fuel m h tl meta gmeta = Some r ->
  free_loop fuel' m h tl meta gmeta = Some r.
Proof.
  induction 1 as [| k _ IH]; [trivial |].
  intros H. apply free_loop_mono, IH, H.
Qed.

Lemma circfree_mono_le (fuel fuel' : nat) (st st' : state) (addr : Z) :
  (fuel <= fuel')%nat ->
  circfree fuel st addr = Some st' -> circfree fuel' st addr = Some st'.
Proof.
  intros Hle. unfold circfree.
  destruct (free_loop fuel _ _ _ _ _) as [r |] eqn:Hr; [| discriminate].
  now rewrite (free_loop_mono_le _ _ _ _ _ _ _ _ Hle Hr).
Qed.

(** ** [circfree] keeps the invariant *)

Lemma inv_addr (st : state) (ptrs : list Z) (q : list block) (addr : Z) :
  inv st ptrs q -> In addr ptrs ->
  exists b, In b q /\ bflag b = HDR_INUSE /\ bstart b = addr - sizeof_hdr /\
            (addr - sizeof_hdr) mod 16 = 0 /\
            0 <= addr - sizeof_hdr < BUFFSIZE.
Proof.
  intros Hinv Hin. apply (inv_ptrs _ _ _ Hinv), live_In in Hin.
  destruct Hin as (b & Hb & Hf & Hs). exists b.
  pose proof (inv_blocks _ _ _ Hinv) as Hq.
  rewrite List.Forall_forall in Hq. destruct (Hq b Hb) as ((H0 & H16) & _).
  rewrite <- Hs. tauto.
Qed.

Lemma circfree_freed (st : state) (ptrs : list Z) (q : list block)
    (addr : Z) (fuel : nat) :
  inv st ptrs q -> In addr ptrs -> (length q <= fuel)%nat ->
  circfree fuel st addr = Some (freed st q addr) /\
  layout (tail (freed st q addr)) (head st) (retire (mark addr q)).
Proof.
  intros Hinv Hin Hfuel.
  destruct (inv_addr _ _ _ _ Hinv Hin) as (b & Hb & Hf & Hs & H16 & Hr).
  unfold circfree, freed. cbn [tail].
  destruct (free_loop_retire
              (Mem.set_free (buffer st) (addr - sizeof_hdr) HDR_FREE)
              (head st) (length (mark addr q)) (mark addr q) (tail st) fuel)
    as [Hloop Hlay].
  - lia.
  - unfold mark. now rewrite List.length_map.
  - apply (inv_tail _ _ _ Hinv).
  - apply layout_mark, (inv_layout _ _ _ Hinv).
  - apply blocks_ok_mark; [apply (inv_len _ _ _ Hinv) | assumption |].
    apply (inv_blocks _ _ _ Hinv).
  - apply gaps_ok_mark, (inv_gaps _ _ _ Hinv).
  - rewrite total_mark. apply (inv_total _ _ _ Hinv).
  - destruct q; [contradiction | discriminate].
  - rewrite Hloop. tauto.
Qed.

Lemma inv_freed (st : state) (ptrs : list Z) (q : list block) (addr : Z) :
  inv st ptrs q -> In addr ptrs ->
  inv (freed st q addr) (List.remove Z.eq_dec addr ptrs) (retire (mark addr q)).
Proof.
  intros Hinv Hin.
  destruct (circfree_freed st ptrs q addr (length q) Hinv Hin (le_n _))
    as [_ Hlay].
  destruct (inv_addr _ _ _ _ Hinv Hin) as (b & Hb & Hf & Hs & H16 & Hr).
  assert (Hblk : Forall (block_ok (Mem.set_free (buffer st) (addr - sizeof_hdr) HDR_FREE))
                        (mark addr q)).
  { apply blocks_ok_mark; [apply (inv_len _ _ _ Hinv) | assumption |].
    apply (inv_blocks _ _ _ Hinv). }
  pose proof (blocks_ok_retire _ _ Hblk) as Hblk'.
  pose proof (total_retire (mark addr q) (block_ok_lens_pos _ _ Hblk)) as Htr.
  rewrite total_mark in Htr. pose proof (inv_total _ _ _ Hinv).
  split; cbn [freed buffer head tail].
  - rewrite length_set_free. apply (inv_len _ _ _ Hinv).
  - apply (inv_head _ _ _ Hinv).
  - destruct (retire (mark addr q)) as [| c r]; simpl.
    + apply (inv_head _ _ _ Hinv).
    + inversion Hblk' as [| ? ? Hc _]; subst. apply Hc.
  - exact Hlay.
  - lia.
  - exact Hblk'.
  - apply gaps_ok_retire, gaps_ok_mark, (inv_gaps _ _ _ Hinv).
  - eapply front_ok_retire; [exact Hblk |].
    apply gaps_ok_mark, (inv_gaps _ _ _ Hinv).
  - intros p. rewrite live_retire, live_mark, <- (inv_ptrs _ _ _ Hinv p).
    split.
    + intros H1. apply List.in_remove in H1. tauto.
    + intros [H1 H2]. now apply List.in_in_remove.
Qed.

Lemma circfree_eq_freed (st : state) (ptrs : list Z) (q : list block)
    (addr : Z) (fuel : nat) (st' : state) :
  inv st ptrs q -> In addr ptrs ->
  circfree fuel st addr = Some st' -> st' = freed st q addr.
Proof.
  intros Hinv Hin Hc.
  pose proof (circfree_mono_le fuel (Nat.max fuel (length q)) st st' addr
                (Nat.le_max_l _ _) Hc) as H1.
  destruct (circfree_freed st ptrs q addr (Nat.max fuel (length q)) Hinv Hin
              (Nat.le_max_r _ _)) as [H2 _].
  congruence.
Qed.

(** Every reachable state satisfies the invariant. *)
Lemma reachable_inv (st : state) (ptrs : list Z) (q : list block) :
  reachable st ptrs q -> inv st ptrs q.
Proof.
  induction 1 as [m t Hlen Ht Ht16 | st ptrs q size _ IH Hs
                  | st ptrs q addr fuel st' _ IH Hin Hc].
  - split; cbn [preload buffer head tail].
    + assumption.
    + tauto.
    + tauto.
    + reflexivity.
    + reflexivity.
    + constructor.
    + exact I.
    + now left.
    + intros p. simpl. tauto.
  - now apply inv_alloc.
  - rewrite (circfree_eq_freed _ _ _ _ _ _ IH Hin Hc). now apply inv_freed.
Qed.

(** ** Consequences of the invariant *)

Lemma layout_split (t h : Z) (r s : list block) :
  0 <= t < BUFFSIZE -> layout t h (r ++ s) ->
  start_of s h = (t + total r) mod BUFFSIZE.
Proof.
  revert t. induction r as [| b r IH]; intros t Ht Hl.
  - simpl in Hl. rewrite Z.add_0_r, Z.mod_small by assumption.
    destruct s as [| c s]; simpl in *; [congruence | tauto].
  - destruct Hl as [_ Hl]. apply IH in Hl.
    + rewrite Hl, total_cons, Zplus_mod_idemp_l. f_equal. lia.
    + apply Z.mod_pos_bound. reflexivity.
Qed.

Lemma oldest_In (q : list block) (b : block) : oldest q = Some b -> In b q.
Proof.
  destruct q as [| c q]; [discriminate |]. simpl.
  destruct (bflag c =? HDR_GAP).
  - destruct q as [| d q]; [discriminate |]. simpl.
    intros [= ->]. right. now left.
  - intros [= ->]. now left.
Qed.

(** While a block is outstanding, a pointer is outstanding. *)
Lemma inv_ptrs_nil (st : state) (ptrs : list Z) (q : list block) :
  inv st ptrs q -> (ptrs = [] <-> q = []).
Proof.
  intros Hinv. split.
  - intros ->. destruct (inv_front _ _ _ Hinv) as [-> | (b & Hb & Hf)];
      [reflexivity | exfalso].
    apply (inv_ptrs _ _ _ Hinv (bstart b + sizeof_hdr)), live_In.
    exists b. split; [now apply oldest_In | split; [assumption | lia]].
  - intros ->. destruct ptrs as [| p ptrs]; [reflexivity | exfalso].
    apply (inv_ptrs _ _ _ Hinv p). now left.
Qed.

Lemma inv_empty_iff (st : state) (ptrs : list Z) (q : list block) :
  inv st ptrs q -> (head st = tail st <-> q = []).
Proof.
  intros Hinv. apply layout_empty_iff.
  - apply (inv_tail _ _ _ Hinv).
  - apply (inv_lens_pos _ _ _ Hinv).
  - apply (inv_total _ _ _ Hinv).
  - apply (inv_layout _ _ _ Hinv).
Qed.

Lemma blocks_length (m : list Z) (q : list block) :
  Forall (block_ok m) q -> 16 * Z.of_nat (length q) <= total q.
Proof.
  induction 1 as [| b q Hb _ IH]; [simpl; lia |].
  rewrite total_cons. destruct Hb as (_ & (Hl & Hl16) & _).
  cbn [length]. zlia.
Qed.

(** The queue never holds more than 127 blocks: [FUEL] iterations are
    enough for every call of [circfree]. *)
Lemma inv_length (st : state) (ptrs : list Z) (q : list block) :
  inv st ptrs q -> (length q <= FUEL)%nat.
Proof.
  intros Hinv. pose proof (blocks_length _ _ (inv_blocks _ _ _ Hinv)).
  pose proof (inv_total _ _ _ Hinv). unfold FUEL. unfold_consts. lia.
Qed.

(** The first block of the queue starts where no later block starts. *)
Lemma layout_first_distinct (t h : Z) (g b : block) (q : list block) :
  0 <= t < BUFFSIZE -> lens_pos (g :: q) -> total (g :: q) < BUFFSIZE ->
  layout t h (g :: q) -> In b q -> bstart b <> bstart g.
Proof.
  intros Ht Hp Htot [Hg Hl] Hin. inversion Hp as [| ? ? Hgl Hq]; subst.
  rewrite total_cons in Htot.
  destruct (layout_In _ h q b (Z.mod_pos_bound (bstart g + blen g) BUFFSIZE eq_refl)
              Hq Hl Hin) as (d & Hd0 & Hd1 & Hd2).
  assert (0 < blen b).
  { unfold lens_pos in Hq. rewrite List.Forall_forall in Hq. now apply Hq. }
  rewrite Hd2. unfold_consts. zlia.
Qed.

(** Releasing a block that is not the oldest retires nothing. *)
Lemma retire_mark_middle (st : state) (ptrs : list Z) (q : list block)
    (addr : Z) (b : block) :
  inv st ptrs q -> In addr ptrs -> oldest q = Some b ->
  bstart b <> addr - sizeof_hdr ->
  retire (mark addr q) = mark addr q /\ retired (mark addr q) = [] /\
  start_of (mark addr q) (head st) = tail st.
Proof.
  intros Hinv Hin Hold Hne.
  destruct (inv_addr _ _ _ _ Hinv Hin) as (a & Ha & Haf & Has & _).
  assert (Hbf : bflag b = HDR_INUSE).
  { destruct (inv_front _ _ _ Hinv) as [-> | (b' & Hb' & Hf)]; [discriminate |].
    congruence. }
  pose proof (inv_layout _ _ _ Hinv) as Hlay.
  pose proof (inv_lens_pos _ _ _ Hinv) as Hpos.
  pose proof (inv_total _ _ _ Hinv) as Htot.
  pose proof (inv_tail _ _ _ Hinv) as [Ht _].
  destruct q as [| c q]; [discriminate |].
  cbn [oldest] in Hold. cbn [mark List.map]. fold (mark addr q).
  destruct (Z.eqb_spec (bflag c) HDR_GAP) as [Hg | Hg].
  - destruct q as [| d q]; [discriminate |]. simpl in Hold.
    injection Hold as ->.
    assert (Hc : bstart c <> addr - sizeof_hdr).
    { rewrite <- Has. intros He. destruct Ha as [-> | Ha].
      - unfold_consts. congruence.
      - symmetry in He. revert He.
        now apply (layout_first_distinct (tail st) (head st) c a (b :: q)). }
    cbn [mark List.map]. fold (mark addr q).
    destruct (Z.eqb_spec (bstart c) (addr - sizeof_hdr)); [contradiction |].
    destruct (Z.eqb_spec (bstart b) (addr - sizeof_hdr)); [contradiction |].
    cbn [retire retired start_of]. rewrite Hg, Hbf.
    change (HDR_GAP =? HDR_FREE) with false.
    change (HDR_GAP =? HDR_GAP) with true.
    change (HDR_INUSE =? HDR_FREE) with false. cbv iota.
    repeat split. apply Hlay.
  - injection Hold as ->.
    destruct (Z.eqb_spec (bstart b) (addr - sizeof_hdr)); [contradiction |].
    cbn [retire retired start_of]. rewrite Hbf.
    change (HDR_INUSE =? HDR_FREE) with false.
    change (HDR_INUSE =? HDR_GAP) with false. cbv iota.
    repeat split. apply Hlay.
Qed.

(** Releasing the oldest block retires it. *)
Lemma retired_mark_oldest (st : state) (ptrs : list Z) (q : list block)
    (addr : Z) (b : block) :
  inv st ptrs q -> oldest q = Some b -> bstart b = addr - sizeof_hdr ->
  In (mkBlock (bstart b) (blen b) HDR_FREE) (retired (mark addr q)).
Proof.
  intros Hinv Hold He.
  pose proof (inv_layout _ _ _ Hinv) as Hlay.
  pose proof (inv_lens_pos _ _ _ Hinv) as Hpos.
  pose proof (inv_total _ _ _ Hinv) as Htot.
  pose proof (inv_tail _ _ _ Hinv) as [Ht _].
  destruct q as [| c q]; [discriminate |].
  cbn [oldest] in Hold. cbn [mark List.map]. fold (mark addr q).
  destruct (Z.eqb_spec (bflag c) HDR_GAP) as [Hg | Hg].
  - destruct q as [| d q]; [discriminate |]. simpl in Hold.
    injection Hold as ->.
    assert (Hc : bstart c <> addr - sizeof_hdr).
    { rewrite <- He. intros He'. symmetry in He'. revert He'.
      apply (layout_first_distinct (tail st) (head st) c b (b :: q));
        try assumption. now left. }
    cbn [mark List.map]. fold (mark addr q).
    destruct (Z.eqb_spec (bstart c) (addr - sizeof_hdr)); [contradiction |].
    destruct (Z.eqb_spec (bstart b) (addr - sizeof_hdr)); [| contradiction].
    cbn [retired bflag]. rewrite Hg.
    change (HDR_GAP =? HDR_FREE) with false.
    change (HDR_GAP =? HDR_GAP) with true.
    change (HDR_FREE =? HDR_FREE) with true. cbv iota.
    right. now left.
  - injection Hold as ->.
    destruct (Z.eqb_spec (bstart b) (addr - sizeof_hdr)); [| contradiction].
    cbn [retired bflag]. change (HDR_FREE =? HDR_FREE) with true. cbv iota.
    now left.
Qed.

(** A valid call of [circfree] ends, in the state [freed]. *)
Lemma circfree_total (st : state) (ptrs : list Z) (q : list block)
    (addr : Z) (fuel : nat) :
  inv st ptrs q -> In addr ptrs -> (FUEL <= fuel)%nat ->
  circfree fuel st addr = Some (freed st q addr).
Proof.
  intros Hinv Hin Hfuel.
  apply (circfree_freed st ptrs q addr fuel Hinv Hin).
  pose proof (inv_length _ _ _ Hinv). lia.
Qed.

(** [tail] after a valid call of [circfree]: it moved over the retired
    blocks. *)
Lemma freed_tail (st : state) (ptrs : list Z) (q : list block) (addr : Z) :
  inv st ptrs q -> In addr ptrs ->
  tail (freed st q addr) =
    (tail st + total (retired (mark addr q))) mod BUFFSIZE /\
  0 <= total (retired (mark addr q)) < BUFFSIZE.
Proof.
  intros Hinv Hin. cbn [freed tail].
  pose proof (inv_tail _ _ _ Hinv) as [Ht _].
  pose proof (proj2 (layout_mark addr _ _ q) (inv_layout _ _ _ Hinv)) as Hlay.
  rewrite <- (retired_retire (mark addr q)) in Hlay.
  split; [now apply layout_split |].
  assert (Hp : lens_pos (mark addr q)).
  { destruct (inv_addr _ _ _ _ Hinv Hin) as (b & _ & _ & _ & H16 & _).
    eapply block_ok_lens_pos, blocks_ok_mark;
      [apply (inv_len _ _ _ Hinv) | exact H16 | apply (inv_blocks _ _ _ Hinv)]. }
  pose proof (total_retire _ Hp) as Htr. rewrite total_mark in Htr.
  pose proof (inv_total _ _ _ Hinv). lia.
Qed.

(** ** The scenarios are valid runs *)

Ltac solve_size_ok := vm_compute; split; [discriminate | reflexivity].

Lemma test2_reachable : reachable test2_3 test2_ptrs3 test2_q3.
Proof.
  unfold test2_3, test2_ptrs3, test2_q3. apply reach_alloc; [| solve_size_ok].
  unfold test2_2, test2_ptrs2, test2_q2. apply reach_alloc; [| solve_size_ok].
  unfold test2_1, test2_ptrs1, test2_q1. apply reach_alloc; [| solve_size_ok].
  apply reach_empty; [reflexivity | vm_compute; split; [discriminate | reflexivity]
                     | reflexivity].
Qed.

Lemma test6_reachable : reachable test6_3 test6_ptrs3 test6_q3.
Proof.
  unfold test6_3, test6_ptrs3, test6_q3. apply reach_alloc; [| solve_size_ok].
  unfold test6_2, test6_ptrs2, test6_q2. apply reach_alloc; [| solve_size_ok].
  unfold test6_1, test6_ptrs1, test6_q1. apply reach_alloc; [| solve_size_ok].
  apply reach_empty; [reflexivity | vm_compute; split; [discriminate | reflexivity]
                     | reflexivity].
Qed.

Ltac solve_free := vm_compute; reflexivity.

Lemma test2_4_reachable : reachable test2_4 test2_ptrs4 test2_q4.
Proof.
  unfold test2_ptrs4, test2_q4.
  apply (reach_free test2_3 test2_ptrs3 test2_q3 40 FUEL test2_4 test2_reachable).
  - vm_compute. tauto.
  - solve_free.
Qed.

Lemma test3_reachable : reachable test3_6 test3_ptrs6 test3_q6.
Proof.
  unfold test3_ptrs6, test3_q6.
  apply (reach_free test3_5 test3_ptrs5 test3_q5 8 FUEL test3_6);
    [| vm_compute; tauto | solve_free].
  unfold test3_ptrs5, test3_q5.
  apply (reach_free test3_4 test3_ptrs4 test3_q4 40 FUEL test3_5);
    [| vm_compute; tauto | solve_free].
  unfold test3_ptrs4, test3_q4.
  apply (reach_free test2_3 test2_ptrs3 test2_q3 56 FUEL test3_4 test2_reachable);
    [vm_compute; tauto | solve_free].
Qed.

(** * The claims of the specification *)

(** ** C1: the pointer that [circalloc] returns *)

(** C1, as stated, fails: after [testreset], [circalloc(10)] returns
    [buffer + 8].  The header of the block is at offset 0, so the payload
    begins 8 bytes, not 16 bytes, after the start of the block, and the
    offset of the pointer is not a multiple of 16. *)
Lemma C1_counterexample :
  snd (circalloc (preload zero_arena 0) 10) = Some 8 /\
  Mem.hdr_free (buffer (fst (circalloc (preload zero_arena 0) 10))) 0 = HDR_INUSE /\
  8 mod 16 <> 0 /\ 8 <> 0 + 16.
Proof. vm_compute. repeat split; discriminate. Qed.

(** C1, amended: a successful [circalloc(size)] returns the pointer
    [sizeof(struct hdr)] = 8 bytes past the start of its block; the start
    of the block is a multiple of 16 inside the arena and carries the
    header ([HDR_INUSE], [block_size]), so the offset of the pointer is 8
    modulo 16. *)
Theorem C1_pointer_is_block_start_plus_hdr (st : state) (size p : Z) :
  length (buffer st) = Z.to_nat BUFFSIZE ->
  state_ok st -> head st mod 16 = 0 -> size_ok size ->
  snd (circalloc st size) = Some p ->
  let start := offset_of st size in
  let st' := fst (circalloc st size) in
  p = start + sizeof_hdr /\
  0 <= start < BUFFSIZE /\ start mod 16 = 0 /\
  p mod 16 = 8 /\
  Mem.hdr_free (buffer st') start = HDR_INUSE /\
  Mem.hdr_len (buffer st') start = block_size size.
Proof.
  intros Hlen Hst H16 Hs Hp. cbv zeta.
  pose proof (block_size_bounds size Hs) as (Hb & Hb16 & Hb').
  assert (Hbs32 : block_size size < 2 ^ 32)
    by (destruct Hs; unfold_consts; lia).
  assert (Hav : rsize st size < avail st).
  { destruct (Z.le_gt_cases (avail st) (rsize st size)) as [Hle | Hgt]; [| lia].
    apply (circalloc_none_iff st size Hst Hs) in Hle. congruence. }
  destruct (wraps st size) eqn:Hw.
  - rewrite circalloc_wrap in Hp |- * by assumption.
    unfold offset_of. rewrite Hw. cbn [fst snd buffer] in *.
    assert (p = sizeof_hdr) by congruence. subst p. clear Hp.
    destruct (block_ok_new
                (Mem.set_len (Mem.set_free (buffer st) (head st) HDR_GAP)
                             (head st) (BUFFSIZE - head st))
                0 HDR_INUSE (block_size size))
      as (_ & _ & _ & Hf & Hl); try tauto; try lia.
    + now rewrite length_set_len, length_set_free.
    + unfold_consts. lia.
    + simpl in Hf, Hl. unfold_consts. repeat split; (lia || assumption).
  - rewrite circalloc_nowrap in Hp |- * by assumption.
    unfold offset_of. rewrite Hw. cbn [fst snd buffer] in *.
    assert (p = head st + sizeof_hdr) by congruence. subst p. clear Hp.
    destruct Hst as [Hh Ht].
    rewrite i32_small by (unfold_consts; lia).
    destruct (block_ok_new (buffer st) (head st) HDR_INUSE (block_size size))
      as (_ & _ & _ & Hf & Hl); try tauto; try lia.
    simpl in Hf, Hl. unfold_consts. repeat split; (zlia || assumption).
Qed.

Lemma C1_witness :
  8 = 0 + sizeof_hdr /\ 8 mod 16 = 8 /\
  Mem.hdr_len (buffer test2_1) 0 = 32.
Proof.
  destruct (C1_pointer_is_block_start_plus_hdr test2_0 10 8)
    as (H1 & _ & _ & H2 & _ & H3).
  - reflexivity.
  - vm_compute. repeat split; discriminate.
  - reflexivity.
  - vm_compute. split; [discriminate | reflexivity].
  - reflexivity.
  - split; [exact H1 | split; [exact H2 | exact H3]].
Defined.

(** ** C2: the length of a block *)

(** C2, as stated, fails: for [size = 8] the code reserves 16 bytes
    (8 of header, 8 of payload) where [round_up(size, 16) + 16] is 32;
    and for [size = 2^32 - 16] the 32-bit arithmetic yields the length 0,
    which is not positive. *)
Lemma C2_counterexample :
  block_size 8 = 16 /\ spec_nsize 8 = 32 /\ block_size 8 <> spec_nsize 8 /\
  block_size 4294967280 = 0.
Proof. vm_compute. repeat split; discriminate. Qed.

(** C2, amended: for every [size > 0] whose block length fits an [int],
    the block length is [round_up(size + 8, 16)], the header of 8 bytes
    and the payload rounded up together to a multiple of 16, and it is a
    positive multiple of 16. *)
Theorem C2_block_size_rounds_size_plus_hdr (size : Z) :
  0 < size -> size + sizeof_hdr + 15 < 2 ^ 31 ->
  block_size size = round_up (size + sizeof_hdr) 16 /\
  0 < block_size size /\ block_size size mod 16 = 0 /\
  size + sizeof_hdr <= block_size size.
Proof.
  intros H0 H1. rewrite block_size_exact by lia.
  unfold round_up. unfold_consts.
  replace (size + 8 + 16 - 1) with (size + 23) by lia. zlia.
Qed.

Lemma C2_witness :
  block_size 1001 = round_up (1001 + sizeof_hdr) 16 /\
  0 < block_size 1001 /\ block_size 1001 mod 16 = 0 /\
  1001 + sizeof_hdr <= block_size 1001.
Proof.
  apply (C2_block_size_rounds_size_plus_hdr 1001); reflexivity.
Defined.

(** ** C3: the allocation that reaches the end of the arena exactly *)

(** C3, as stated, fails: from [head = tail = 2000] the call
    [circalloc(30)] leaves [head] at 0, not at 0x20, and returns
    [buffer + 2008], not [buffer + 16]; the next call [circalloc(20)]
    leaves [head] at 0x20, not at 0x40. *)
Lemma C3_counterexample :
  head (fst (circalloc test4_0 30)) = 0 /\
  head (fst (circalloc test4_0 30)) <> 32 /\
  snd (circalloc test4_0 30) = Some 2008 /\
  snd (circalloc test4_0 30) <> Some 16 /\
  head (fst (circalloc (fst (circalloc test4_0 30)) 20)) = 32 /\
  head (fst (circalloc (fst (circalloc test4_0 30)) 20)) <> 64.
Proof. vm_compute. repeat split; discriminate. Qed.

(** C3, amended: from [head = tail = 2000] in the arena of 2048 bytes,
    [circalloc(30)] needs 48 bytes, which fit exactly before the end: no
    gap is inserted, the block is at offset 2000, the pointer returned is
    [buffer + 2008] and [head] wraps to 0; the next call [circalloc(20)]
    returns [buffer + 8] and leaves [head] at 0x20.  [tail] stays at
    2000. *)
Theorem C3_exact_fit_wraps_head_to_zero (m : list Z) :
  let st0 := preload m 2000 in
  let st1 := fst (circalloc st0 30) in
  let st2 := fst (circalloc st1 20) in
  block_size 30 = 48 /\ wraps st0 30 = false /\
  snd (circalloc st0 30) = Some 2008 /\
  head st1 = 0 /\ tail st1 = 2000 /\
  snd (circalloc st1 20) = Some 8 /\
  head st2 = 32 /\ tail st2 = 2000.
Proof. cbv zeta. repeat split; vm_compute; reflexivity. Qed.

(** ** C4: the gap block *)

(** C4, as stated, fails: from [head = tail = 2000] the call
    [circalloc(1000)] returns [buffer + 8], not [buffer + 16]. *)
Lemma C4_counterexample :
  snd (circalloc test4_0 1000) = Some 8 /\
  snd (circalloc test4_0 1000) <> Some 16.
Proof. vm_compute. split; [reflexivity | discriminate]. Qed.

(** C4, amended: when the block does not fit between [head] and the end
    of the arena ([tail <= head] and [BUFFSIZE - head < block_size]) and
    the call succeeds, [circalloc] writes a gap block ([HDR_GAP]) of
    [BUFFSIZE - head] bytes at [head] and the block of the caller at
    offset 0, returns [buffer + 8] and leaves [head] at the block length;
    [tail] does not move. *)
Theorem C4_wrap_inserts_gap_block (st : state) (size : Z) :
  length (buffer st) = Z.to_nat BUFFSIZE ->
  state_ok st -> head st mod 16 = 0 -> size_ok size ->
  tail st <= head st -> BUFFSIZE - head st < block_size size ->
  snd (circalloc st size) <> None ->
  let st' := fst (circalloc st size) in
  snd (circalloc st size) = Some sizeof_hdr /\
  new_blocks st size =
    [mkBlock (head st) (BUFFSIZE - head st) HDR_GAP;
     mkBlock 0 (block_size size) HDR_INUSE] /\
  Mem.hdr_free (buffer st') (head st) = HDR_GAP /\
  Mem.hdr_len (buffer st') (head st) = BUFFSIZE - head st /\
  Mem.hdr_free (buffer st') 0 = HDR_INUSE /\
  Mem.hdr_len (buffer st') 0 = block_size size /\
  head st' = block_size size /\ tail st' = tail st.
Proof.
  intros Hlen Hst H16 Hs Hth Hfit Hp. cbv zeta.
  pose proof (block_size_bounds size Hs) as (Hb & Hb16 & Hb').
  assert (Hbs32 : block_size size < 2 ^ 32)
    by (destruct Hs; unfold_consts; lia).
  assert (Hav : rsize st size < avail st).
  { destruct (Z.le_gt_cases (avail st) (rsize st size)) as [Hle | Hgt]; [| lia].
    apply (circalloc_none_iff st size Hst Hs) in Hle. congruence. }
  assert (Hw : wraps st size = true)
    by (apply wraps_true_iff; [assumption | assumption | lia]).
  rewrite new_blocks_wrap, circalloc_wrap by assumption.
  cbn [fst snd buffer head tail].
  pose proof (avail_eq st Hst) as Hae.
  assert (0 <= held st < BUFFSIZE)
    by (unfold held; apply Z.mod_pos_bound; reflexivity).
  unfold rsize in Hav. rewrite (rem_of_wrap _ _ Hst Hw) in Hav.
  destruct Hst as [Hh Ht].
  assert (Hgap : block_ok
            (Mem.set_len (Mem.set_free (buffer st) (head st) HDR_GAP)
                         (head st) (BUFFSIZE - head st))
            (mkBlock (head st) (BUFFSIZE - head st) HDR_GAP)).
  { apply block_ok_new; auto; unfold_consts; zlia. }
  pose proof (block_ok_write _ 0 HDR_INUSE (block_size size) _ Hgap)
    as (_ & _ & _ & Hgf & Hgl).
  { unfold apart. simpl. unfold_consts. zlia. }
  assert (Hblk : block_ok
            (Mem.set_len
               (Mem.set_free
                  (Mem.set_len (Mem.set_free (buffer st) (head st) HDR_GAP)
                               (head st) (BUFFSIZE - head st))
                  0 HDR_INUSE)
               0 (block_size size))
            (mkBlock 0 (block_size size) HDR_INUSE)).
  { apply block_ok_new; auto;
      try (rewrite length_set_len, length_set_free; assumption);
      unfold_consts; lia. }
  destruct Hblk as (_ & _ & _ & Hf & Hl).
  simpl in *. repeat split; assumption.
Qed.

Lemma C4_witness :
  snd (circalloc test4_0 1000) = Some 8 /\
  Mem.hdr_free (buffer (fst (circalloc test4_0 1000))) 2000 = HDR_GAP /\
  Mem.hdr_len (buffer (fst (circalloc test4_0 1000))) 2000 = 48 /\
  Mem.hdr_free (buffer (fst (circalloc test4_0 1000))) 0 = HDR_INUSE /\
  Mem.hdr_len (buffer (fst (circalloc test4_0 1000))) 0 = 1008 /\
  head (fst (circalloc test4_0 1000)) = 1008 /\
  tail (fst (circalloc test4_0 1000)) = 2000.
Proof.
  destruct (C4_wrap_inserts_gap_block test4_0 1000)
    as (H1 & _ & H2 & H3 & H4 & H5 & H6 & H7).
  - reflexivity.
  - vm_compute. repeat split; discriminate.
  - reflexivity.
  - vm_compute. split; [discriminate | reflexivity].
  - vm_compute. discriminate.
  - reflexivity.
  - vm_compute. discriminate.
  - split; [exact H1 |]. split; [exact H2 |]. split; [exact H3 |].
    split; [exact H4 |]. split; [exact H5 |]. split; [exact H6 | exact H7].
Defined.

(** ** C5: when [circalloc] returns null *)

(** C5, as stated, fails: in the state of test 6 with [head = 0x190] and
    [tail = 0x200], 1936 bytes are held and [circalloc(104)] reserves 112
    bytes; [L_B + rsize] is 2048, not greater than [N_B], and the call
    returns null all the same. *)
Lemma C5_counterexample :
  head test6_3 = 400 /\ tail test6_3 = 512 /\
  held test6_3 = 1936 /\ rsize test6_3 104 = 112 /\
  ~ (held test6_3 + rsize test6_3 104 > BUFFSIZE) /\
  snd (circalloc test6_3 104) = None.
Proof. vm_compute. repeat split; discriminate. Qed.

(** C5, amended: in every state with [head] and [tail] inside the arena
    and for every [size] whose [int] arithmetic is exact, [circalloc]
    returns null exactly when the reservation [rsize], the block length
    plus, when the call wraps, the bytes up to the end of the arena,
    would not leave one byte free: [L_B + rsize >= N_B], that is when
    [rsize] is at least the free bytes.  It then leaves the state
    unchanged, and otherwise returns a pointer. *)
Theorem C5_null_iff_reservation_reaches_capacity (st : state) (size : Z) :
  state_ok st -> size_ok size ->
  (snd (circalloc st size) = None <-> BUFFSIZE <= held st + rsize st size) /\
  (snd (circalloc st size) = None <-> avail st <= rsize st size) /\
  (snd (circalloc st size) = None -> fst (circalloc st size) = st) /\
  (held st + rsize st size < BUFFSIZE ->
   exists p, snd (circalloc st size) = Some p) /\
  rsize st size =
    block_size size + (if wraps st size then BUFFSIZE - head st else 0).
Proof.
  intros Hst Hs.
  pose proof (circalloc_none_iff st size Hst Hs) as Hiff.
  pose proof (avail_eq st Hst) as Hae.
  split; [| split; [| split; [| split]]].
  - rewrite Hiff. lia.
  - exact Hiff.
  - apply circalloc_none_state.
  - intros H. destruct (snd (circalloc st size)) as [p |] eqn:Hp.
    + now exists p.
    + exfalso. assert (avail st <= rsize st size) by now apply Hiff. lia.
  - unfold rsize. destruct (wraps st size) eqn:Hw.
    + now rewrite rem_of_wrap.
    + now rewrite rem_of_nowrap.
Qed.

Lemma C5_witness :
  snd (circalloc test6_3 104) = None /\
  fst (circalloc test6_3 104) = test6_3 /\
  (exists p, snd (circalloc test6_3 88) = Some p).
Proof.
  assert (Hst : state_ok test6_3) by (vm_compute; repeat split; discriminate).
  destruct (C5_null_iff_reservation_reaches_capacity test6_3 104 Hst)
    as (H1 & _ & H2 & _).
  { vm_compute. split; [discriminate | reflexivity]. }
  destruct (C5_null_iff_reservation_reaches_capacity test6_3 88 Hst)
    as (_ & _ & _ & H3 & _).
  { vm_compute. split; [discriminate | reflexivity]. }
  assert (Hn : snd (circalloc test6_3 104) = None)
    by (apply H1; vm_compute; discriminate).
  split; [exact Hn |]. split; [exact (H2 Hn) |].
  apply H3. vm_compute. reflexivity.
Defined.

(** ** C6: [head == tail] means empty *)

(** C6: in every state of a valid run, [head == tail] holds exactly when
    no block (of a caller or gap) is outstanding, and exactly when no
    pointer is outstanding: the bytes of the outstanding blocks are the
    bytes held between [tail] and [head], always fewer than [BUFFSIZE].
    A call whose reservation is exactly the free space, which would make
    [head] equal [tail] with blocks outstanding, returns null and leaves
    the state alone. *)
Theorem C6_head_eq_tail_iff_empty (st : state) (ptrs : list Z) (q : list block) :
  reachable st ptrs q ->
  (head st = tail st <-> q = []) /\
  (head st = tail st <-> ptrs = []) /\
  (total q = held st /\ held st < BUFFSIZE) /\
  (forall size, size_ok size -> rsize st size = avail st ->
     circalloc st size = (st, None)).
Proof.
  intros Hr. pose proof (reachable_inv _ _ _ Hr) as Hinv.
  split; [now apply (inv_empty_iff st ptrs) |].
  split; [| split].
  - rewrite (inv_ptrs_nil _ _ _ Hinv). now apply (inv_empty_iff st ptrs).
  - rewrite (inv_held _ _ _ Hinv). split; [reflexivity |].
    apply (inv_total _ _ _ Hinv).
  - intros size Hs Heq.
    pose proof (inv_state_ok _ _ _ Hinv) as Hst.
    pose proof (circalloc_none_iff st size Hst Hs) as Hiff.
    assert (Hn : snd (circalloc st size) = None) by (apply Hiff; lia).
    pose proof (circalloc_none_state _ _ Hn) as Hs'.
    destruct (circalloc st size) as [s r]. simpl in *. congruence.
Qed.

Lemma C6_witness :
  (head test6_3 = 400 /\ tail test6_3 = 512) /\
  test6_q3 <> [] /\ head test6_3 <> tail test6_3 /\
  circalloc test6_3 104 = (test6_3, None) /\
  (exists p, snd (circalloc test6_3 88) = Some p) /\
  head (fst (circalloc test6_3 88)) = 496.
Proof.
  destruct (C6_head_eq_tail_iff_empty test6_3 test6_ptrs3 test6_q3
              test6_reachable) as (H1 & _ & _ & H3).
  split; [split; reflexivity |].
  assert (Hq : test6_q3 <> []) by (vm_compute; discriminate).
  split; [exact Hq |].
  split; [intros He; apply Hq, H1, He |].
  split; [apply H3; [solve_size_ok | reflexivity] |].
  split; [exists 408; reflexivity | reflexivity].
Defined.

(** ** C7: freeing a block in the middle *)

(** C7: the oldest block of a valid run is in use.  A valid [circfree]
    of another block only sets the byte [free] of the header of that
    block to [HDR_FREE]: [head], [tail] and every other byte of the arena
    are unchanged, and nothing is retired.  A valid [circfree] of the
    oldest block retires it together with every freed block and gap block
    that follows, in this one call: [tail] moves over the retired blocks
    and stops at a block in use or at [head]. *)
Theorem C7_middle_free_frame (st : state) (ptrs : list Z) (q : list block)
    (addr : Z) (b : block) (fuel : nat) :
  reachable st ptrs q -> In addr ptrs -> oldest q = Some b ->
  (FUEL <= fuel)%nat ->
  bflag b = HDR_INUSE /\
  (bstart b <> addr - sizeof_hdr ->
   circfree fuel st addr =
     Some (mkState (Mem.store8 (buffer st) (addr - sizeof_hdr) HDR_FREE)
                   (head st) (tail st)) /\
   retired (mark addr q) = []) /\
  (bstart b = addr - sizeof_hdr ->
   exists st',
     circfree fuel st addr = Some st' /\
     buffer st' = Mem.store8 (buffer st) (addr - sizeof_hdr) HDR_FREE /\
     head st' = head st /\
     mark addr q = retired (mark addr q) ++ retire (mark addr q) /\
     In (mkBlock (bstart b) (blen b) HDR_FREE) (retired (mark addr q)) /\
     Forall (fun c => bflag c = HDR_FREE \/ bflag c = HDR_GAP)
            (retired (mark addr q)) /\
     front_ok (retire (mark addr q)) /\
     tail st' = (tail st + total (retired (mark addr q))) mod BUFFSIZE /\
     tail st' = start_of (retire (mark addr q)) (head st)).
Proof.
  intros Hr Hin Hold Hfuel. pose proof (reachable_inv _ _ _ Hr) as Hinv.
  pose proof (circfree_total st ptrs q addr fuel Hinv Hin Hfuel) as Hfree.
  split; [| split].
  - destruct (inv_front _ _ _ Hinv) as [-> | (b' & Hb' & Hf)]; [discriminate |].
    congruence.
  - intros Hne.
    destruct (retire_mark_middle st ptrs q addr b Hinv Hin Hold Hne)
      as (Hret & Hnil & Hstart).
    split; [| assumption]. rewrite Hfree. unfold freed.
    now rewrite Hret, Hstart.
  - intros He. exists (freed st q addr).
    split; [assumption |]. split; [reflexivity |]. split; [reflexivity |].
    split; [symmetry; apply retired_retire |].
    split; [now apply (retired_mark_oldest st ptrs) |].
    split; [apply retired_flags |].
    split; [apply (inv_front _ _ _ (inv_freed st ptrs q addr Hinv Hin)) |].
    split; [apply (freed_tail st ptrs q addr Hinv Hin) | reflexivity].
Qed.

Lemma C7_witness :
  (* test 2: [free(p2)] with [p1] in use, then [free(p1)] *)
  (circfree FUEL test2_3 40 =
     Some (mkState (Mem.store8 (buffer test2_3) 32 HDR_FREE) 1072 0)) /\
  (exists st', circfree FUEL test2_4 8 = Some st' /\ tail st' = 48).
Proof.
  split.
  - destruct (C7_middle_free_frame test2_3 test2_ptrs3 test2_q3 40
                (mkBlock 0 32 HDR_INUSE) FUEL test2_reachable)
      as (_ & H & _).
    + vm_compute. tauto.
    + reflexivity.
    + apply le_n.
    + apply H. vm_compute. discriminate.
  - destruct (C7_middle_free_frame test2_4 test2_ptrs4 test2_q4 8
                (mkBlock 0 32 HDR_INUSE) FUEL test2_4_reachable)
      as (_ & _ & H).
    + vm_compute. tauto.
    + reflexivity.
    + apply le_n.
    + destruct (H eq_refl) as (st' & H1 & _ & _ & _ & _ & _ & _ & H2 & _).
      exists st'. split; [exact H1 | exact H2].
Defined.

(** ** C8: [tail] only advances *)

(** C8: along a valid run, [circalloc] never moves [tail], and a valid
    [circfree] ends and moves [tail] forward, modulo [BUFFSIZE], by the
    lengths of the blocks it retires; these are a prefix of the queue
    and each is a freed block or a gap block, never a block in use.
    Freeing a block that is not the oldest leaves [tail] where it is. *)
Theorem C8_tail_only_advances (st : state) (ptrs : list Z) (q : list block) :
  reachable st ptrs q ->
  (forall size, tail (fst (circalloc st size)) = tail st) /\
  (forall addr fuel, In addr ptrs -> (FUEL <= fuel)%nat ->
     exists st',
       circfree fuel st addr = Some st' /\
       mark addr q = retired (mark addr q) ++ retire (mark addr q) /\
       Forall (fun c => bflag c = HDR_FREE \/ bflag c = HDR_GAP)
              (retired (mark addr q)) /\
       0 <= total (retired (mark addr q)) < BUFFSIZE /\
       tail st' = (tail st + total (retired (mark addr q))) mod BUFFSIZE /\
       (forall b, oldest q = Some b -> bstart b <> addr - sizeof_hdr ->
          tail st' = tail st)).
Proof.
  intros Hr. pose proof (reachable_inv _ _ _ Hr) as Hinv. split.
  - intros size. unfold circalloc, circallocblock.
    destruct (avail st <=? _); [reflexivity |]. cbn [fst].
    destruct (u32 (rem_of st size) =? 0), (u32 (block_size size) =? 0);
      reflexivity.
  - intros addr fuel Hin Hfuel. exists (freed st q addr).
    split; [now apply (circfree_total st ptrs) |].
    split; [symmetry; apply retired_retire |].
    split; [apply retired_flags |].
    destruct (freed_tail st ptrs q addr Hinv Hin) as [Htl Hb].
    split; [assumption |]. split; [assumption |].
    intros b Hold Hne.
    destruct (retire_mark_middle st ptrs q addr b Hinv Hin Hold Hne)
      as (Hret & _ & Hstart).
    cbn [freed tail]. now rewrite Hret.
Qed.

Lemma C8_witness :
  tail (fst (circalloc test2_3 100)) = 0 /\
  (exists st', circfree FUEL test2_3 40 = Some st' /\ tail st' = 0).
Proof.
  destruct (C8_tail_only_advances test2_3 test2_ptrs3 test2_q3 test2_reachable)
    as (H1 & H2).
  split; [exact (H1 100) |].
  destruct (H2 40 FUEL) as (st' & Hf & _ & _ & _ & _ & Hs).
  - vm_compute. tauto.
  - apply le_n.
  - exists st'. split; [exact Hf |].
    apply (Hs (mkBlock 0 32 HDR_INUSE)); [reflexivity |].
    vm_compute. discriminate.
Defined.

(** ** C9: the round trip *)

(** C9: along a valid run every [circfree] of an outstanding pointer
    ends, leaves one pointer less outstanding and continues the run; and
    once every pointer returned by [circalloc] has been freed, in any
    order, the allocator is empty: no block is outstanding and
    [head == tail]. *)
Theorem C9_round_trip (st : state) (ptrs : list Z) (q : list block) :
  reachable st ptrs q ->
  (ptrs = [] -> head st = tail st /\ q = []) /\
  (forall addr fuel, In addr ptrs -> (FUEL <= fuel)%nat ->
     exists st',
       circfree fuel st addr = Some st' /\
       reachable st' (List.remove Z.eq_dec addr ptrs) (retire (mark addr q)) /\
       (length (List.remove Z.eq_dec addr ptrs) < length ptrs)%nat).
Proof.
  intros Hr. pose proof (reachable_inv _ _ _ Hr) as Hinv. split.
  - intros Hnil. apply (inv_ptrs_nil _ _ _ Hinv) in Hnil.
    split; [now apply (inv_empty_iff st ptrs q Hinv) | assumption].
  - intros addr fuel Hin Hfuel. exists (freed st q addr).
    pose proof (circfree_total st ptrs q addr fuel Hinv Hin Hfuel) as Hfree.
    split; [assumption |]. split.
    + now apply (reach_free st ptrs q addr fuel).
    + now apply List.remove_length_lt.
Qed.

Lemma C9_witness :
  (* test 3: the three blocks of test 2 freed in reverse order *)
  head test3_6 = tail test3_6 /\ test3_q6 = [] /\ tail test3_6 = 1072.
Proof.
  destruct (C9_round_trip test3_6 test3_ptrs6 test3_q6 test3_reachable)
    as (H & _).
  destruct (H eq_refl) as [H1 H2].
  split; [exact H1 |]. split; [exact H2 | reflexivity].
Defined.

(** ** C10: alignment *)

(** C10: the size of the arena is a multiple of 16 and, along a valid
    run from an aligned [head = tail], [head] and [tail] stay multiples
    of 16; the outstanding blocks are the headers chained in the arena
    from [tail] to [head], and every block (of a caller or gap) starts at
    a multiple of 16 and has a length that is a positive multiple of 16;
    every pointer handed out lies [sizeof(struct hdr)] = 8 bytes past the
    start of its block. *)
Theorem C10_alignment (st : state) (ptrs : list Z) (q : list block) :
  reachable st ptrs q ->
  BUFFSIZE mod 16 = 0 /\ sizeof_hdr = 8 /\
  head st mod 16 = 0 /\ tail st mod 16 = 0 /\
  layout (tail st) (head st) q /\
  Forall (block_ok (buffer st)) q /\
  Forall (fun b => bstart b mod 16 = 0 /\ 0 < blen b /\ blen b mod 16 = 0) q /\
  (forall p, In p ptrs ->
     exists b, In b q /\ bflag b = HDR_INUSE /\
               p = bstart b + sizeof_hdr /\ bstart b mod 16 = 0) /\
  (forall size p, size_ok size -> snd (circalloc st size) = Some p ->
     In (mkBlock (p - sizeof_hdr) (block_size size) HDR_INUSE)
        (new_blocks st size) /\
     (p - sizeof_hdr) mod 16 = 0).
Proof.
  intros Hr. pose proof (reachable_inv _ _ _ Hr) as Hinv.
  split; [reflexivity |]. split; [reflexivity |].
  split; [apply (inv_head _ _ _ Hinv) |].
  split; [apply (inv_tail _ _ _ Hinv) |].
  split; [apply (inv_layout _ _ _ Hinv) |].
  split; [apply (inv_blocks _ _ _ Hinv) |].
  split; [| split].
  - eapply Forall_impl; [apply (inv_blocks _ _ _ Hinv) |].
    intros b Hb. simpl. destruct Hb as ((_ & H1) & (H2 & H3) & _). tauto.
  - intros p Hp.
    destruct (inv_addr _ _ _ _ Hinv Hp) as (b & Hb & Hf & Hs & H16 & _).
    exists b. rewrite Hs. repeat split; (assumption || lia).
  - intros size p Hs Hp.
    assert (Hin : In (mkBlock (p - sizeof_hdr) (block_size size) HDR_INUSE)
                     (new_blocks st size)).
    { unfold new_blocks. rewrite Hp. apply in_or_app. right. now left. }
    split; [assumption |].
    pose proof (inv_blocks _ _ _ (inv_alloc st ptrs q size Hinv Hs)) as Hq.
    rewrite List.Forall_forall in Hq.
    destruct (Hq _ (in_or_app _ _ _ (or_intror Hin))) as ((_ & H16) & _).
    exact H16.
Qed.

Lemma C10_witness :
  head test6_3 mod 16 = 0 /\ tail test6_3 mod 16 = 0 /\
  (280 - sizeof_hdr) mod 16 = 0.
Proof.
  destruct (C10_alignment test6_3 test6_ptrs3 test6_q3 test6_reachable)
    as (_ & _ & H1 & H2 & _ & _ & _ & H3 & _).
  split; [exact H1 |]. split; [exact H2 |].
  destruct (H3 280) as (b & _ & _ & Hp & H16).
  - vm_compute. tauto.
  - replace (280 - sizeof_hdr) with (bstart b) by lia. exact H16.
Defined.

(** * Further properties of the code *)

(** ** [avail] *)

Lemma avail_pos (st : state) :
  state_ok st ->
  0 < avail st <= BUFFSIZE /\ (head st = tail st -> avail st = BUFFSIZE).
Proof.
  intros Hst. pose proof (avail_eq st Hst) as Hae.
  destruct Hst as [Hh Ht]. unfold held in *. unfold_consts.
  split; [zlia |]. intros He. rewrite Hae, He, Z.sub_diag. reflexivity.
Qed.

(** X1: With [head] and [tail] inside the arena, [avail()] is the arena
    size less the bytes held from [tail] to [head]: it is never 0, it is
    [BUFFSIZE] exactly when [head == tail], and it is a multiple of 16
    when [head] and [tail] are. *)
Theorem avail_range (st : state) :
  state_ok st ->
  0 < avail st <= BUFFSIZE /\
  avail st + held st = BUFFSIZE /\
  (avail st = BUFFSIZE <-> head st = tail st) /\
  (head st mod 16 = 0 -> tail st mod 16 = 0 -> avail st mod 16 = 0).
Proof.
  intros Hst. pose proof (avail_eq st Hst) as Hae.
  destruct Hst as [Hh Ht]. unfold held in *. unfold_consts.
  repeat split; try zlia.
Qed.

Lemma avail_range_witness :
  avail test6_3 = 112 /\ avail test6_3 + held test6_3 = BUFFSIZE.
Proof.
  destruct (avail_range test6_3) as (_ & H & _).
  - vm_compute. repeat split; discriminate.
  - split; [reflexivity | exact H].
Defined.

(** ** [circallocblock] *)

Lemma load8_write_hdr (m : list Z) (o f l a : Z) :
  a < o \/ o + sizeof_hdr <= a ->
  Mem.load8 (Mem.set_len (Mem.set_free m o f) o l) a = Mem.load8 m a.
Proof.
  unfold Mem.set_len, Mem.set_free, sizeof_hdr, offsetof_len. intros Ha.
  rewrite load8_store32_ne by lia. apply load8_store8_ne. lia.
Qed.

(** X2: [circallocblock(size, hdr_free)] with [size == 0] does nothing.
    Otherwise, with the header at [head] inside the arena, the header
    reads back as written ([free] and [len]), [head] advances by [size]
    modulo [BUFFSIZE], [tail] stays, and no byte outside the 8 bytes of
    the header changes. *)
Theorem circallocblock_writes_header (st : state) (size f : Z) :
  0 <= head st -> head st + sizeof_hdr <= Z.of_nat (length (buffer st)) ->
  0 <= size < 2 ^ 32 -> 0 <= f < 256 ->
  let st' := circallocblock size f st in
  (size = 0 -> st' = st) /\
  (size <> 0 ->
   Mem.hdr_free (buffer st') (head st) = f /\
   Mem.hdr_len (buffer st') (head st) = size /\
   head st' = (head st + size) mod 2 ^ 32 mod BUFFSIZE) /\
  tail st' = tail st /\
  length (buffer st') = length (buffer st) /\
  (forall a, a < head st \/ head st + sizeof_hdr <= a ->
     Mem.load8 (buffer st') a = Mem.load8 (buffer st) a).
Proof.
  intros Hh Hlen Hs Hf. cbv zeta. unfold circallocblock.
  destruct (Z.eqb_spec size 0) as [He | Hne]; cbn [buffer head tail].
  - repeat split; try tauto; try reflexivity.
  - split; [tauto |]. split; [intros _ | split; [reflexivity | split]].
    + rewrite hdr_len_set_len;
        [| lia | rewrite length_set_free; lia | lia].
      rewrite hdr_free_set_len_same, hdr_free_set_free;
        [| unfold sizeof_hdr in *; lia | lia].
      repeat split.
    + now rewrite length_set_len, length_set_free.
    + intros a Ha. now apply load8_write_hdr.
Qed.

Lemma circallocblock_writes_header_witness :
  Mem.hdr_free (buffer (circallocblock 48 HDR_GAP test4_0)) 2000 = HDR_GAP /\
  Mem.hdr_len (buffer (circallocblock 48 HDR_GAP test4_0)) 2000 = 48 /\
  head (circallocblock 48 HDR_GAP test4_0) = 0.
Proof.
  destruct (circallocblock_writes_header test4_0 48 HDR_GAP)
    as (_ & H & _).
  - vm_compute. discriminate.
  - vm_compute. discriminate.
  - vm_compute. split; [discriminate | reflexivity].
  - vm_compute. split; [discriminate | reflexivity].
  - destruct H as (H1 & H2 & H3); [discriminate |].
    split; [exact H1 |]. split; [exact H2 | exact H3].
Defined.

(** ** [testgetaligned] *)

Lemma land_u32_lnot_15 (x : Z) :
  0 <= x < 2 ^ 32 -> Z.land x (u32 (Z.lnot 15)) = 16 * (x / 16).
Proof.
  intros Hx. rewrite <- land_lnot_15.
  change (u32 (Z.lnot 15)) with (Z.land (Z.ones 32) (Z.lnot 15)).
  rewrite Z.land_assoc, Z.land_ones by lia.
  rewrite Z.mod_small by assumption. reflexivity.
Qed.

(** X14: [testgetaligned(size)] is [size] rounded up to a multiple of 16, as
    long as the result fits an [int]; rounding twice changes nothing,
    and the block length of [circalloc(size)] is
    [testgetaligned(size + sizeof(struct hdr))]. *)
Theorem testgetaligned_rounds_up (size : Z) :
  0 <= size -> size + 15 < 2 ^ 31 ->
  testgetaligned size = round_up size 16 /\
  size <= testgetaligned size < size + 16 /\
  testgetaligned size mod 16 = 0 /\
  testgetaligned (testgetaligned size) = testgetaligned size /\
  (size + sizeof_hdr + 15 < 2 ^ 31 ->
   block_size size = testgetaligned (size + sizeof_hdr)).
Proof.
  intros H0 H1.
  assert (Hr : forall x, 0 <= x -> x + 15 < 2 ^ 31 ->
                 testgetaligned x = 16 * ((x + 15) / 16)).
  { intros x Hx0 Hx1. unfold testgetaligned.
    rewrite (u32_small (x + 15)) by lia.
    rewrite land_u32_lnot_15 by lia. apply i32_small. zlia. }
  rewrite (Hr size H0 H1).
  split; [unfold round_up; replace (size + 16 - 1) with (size + 15) by lia; lia |].
  split; [zlia |]. split; [zlia |]. split.
  - rewrite Hr by zlia. zlia.
  - intros H2. rewrite block_size_exact by assumption.
    rewrite Hr by (unfold sizeof_hdr in *; lia). unfold sizeof_hdr.
    replace (size + 8 + 15) with (size + 23) by lia. reflexivity.
Qed.

Lemma testgetaligned_rounds_up_witness :
  testgetaligned 1009 = 1024 /\ block_size 1001 = testgetaligned 1009.
Proof.
  destruct (testgetaligned_rounds_up 1001) as (_ & _ & _ & _ & H);
    [discriminate | reflexivity |].
  split; [reflexivity | apply H; reflexivity].
Defined.

(** ** [main] *)

(** X17: [main] returns 0: with four or more iterations allowed to each loop
    of [circfree], all its assertions hold, one test after the other on
    the same arena, and the run ends with the allocator empty at
    0x1F0. *)
Theorem main_returns_0 (fuel : nat) :
  (4 <= fuel)%nat ->
  exists st, main fuel start_state = Ret 0 st /\
             head st = 0x1F0 /\ tail st = 0x1F0.
Proof.
  intros Hfuel. do 4 (destruct fuel as [| fuel]; [lia |]).
  eexists. split; [vm_compute; reflexivity | split; reflexivity].
Qed.

Lemma main_returns_0_witness :
  exists st, main FUEL start_state = Ret 0 st /\
             head st = 0x1F0 /\ tail st = 0x1F0.
Proof.
  apply (main_returns_0 FUEL). unfold FUEL. lia.
Defined.

(** ** Blocks inside the arena *)

Lemma Forall_retire (P : block -> Prop) (q : list block) :
  Forall P q -> Forall P (retire q).
Proof.
  intros H. rewrite <- (retired_retire q) in H.
  apply Forall_app in H. tauto.
Qed.

Lemma fits_mark (addr : Z) (q : list block) :
  Forall fits q -> Forall fits (mark addr q).
Proof.
  intros H. rewrite List.Forall_forall in *. intros b Hb.
  apply In_mark in Hb as (c & Hc & ->). specialize (H c Hc).
  destruct (bstart c =? addr - sizeof_hdr); assumption.
Qed.

(** What a successful call returns and adds to the queue. *)
Lemma circalloc_some (st : state) (size p : Z) :
  state_ok st -> size_ok size -> snd (circalloc st size) = Some p ->
  rsize st size < avail st /\
  p = offset_of st size + sizeof_hdr /\
  (offset_of st size = 0 \/ offset_of st size = head st) /\
  offset_of st size + block_size size <= BUFFSIZE /\
  Forall fits (new_blocks st size).
Proof.
  intros Hst Hs Hp.
  pose proof (block_size_bounds size Hs) as (Hb & Hb16 & Hb').
  pose proof (avail_eq st Hst) as Hae.
  assert (0 <= held st < BUFFSIZE)
    by (unfold held; apply Z.mod_pos_bound; reflexivity).
  assert (Hav : rsize st size < avail st).
  { destruct (Z.le_gt_cases (avail st) (rsize st size)) as [Hle | Hgt]; [| lia].
    apply (circalloc_none_iff st size Hst Hs) in Hle. congruence. }
  split; [assumption |].
  destruct (wraps st size) eqn:Hw.
  - rewrite new_blocks_wrap by assumption.
    rewrite circalloc_wrap in Hp by assumption. cbn [snd] in Hp.
    unfold offset_of. rewrite Hw.
    unfold rsize in Hav. rewrite (rem_of_wrap _ _ Hst Hw) in Hav.
    destruct Hst as [Hh Ht].
    assert (p = sizeof_hdr) by congruence. subst p.
    split; [reflexivity |]. split; [now left |]. split; [lia |].
    repeat constructor; unfold fits; simpl; lia.
  - rewrite new_blocks_nowrap by assumption.
    rewrite circalloc_nowrap in Hp by assumption. cbn [snd] in Hp.
    unfold offset_of. rewrite Hw.
    unfold rsize in Hav. rewrite (rem_of_nowrap _ _ Hw) in Hav.
    assert (Hfit : head st + block_size size <= BUFFSIZE).
    { destruct (Z.le_gt_cases (tail st) (head st)) as [Hth | Hth].
      - destruct (Z.lt_ge_cases (BUFFSIZE - head st) (block_size size)) as [Hlt | Hge];
          [| lia].
        assert (wraps st size = true) by (apply wraps_true_iff; tauto).
        congruence.
      - destruct Hst as [Hh Ht]. unfold held in *. unfold_consts. zlia. }
    destruct Hst as [Hh Ht].
    rewrite i32_small by (unfold_consts; lia).
    split; [congruence |]. split; [now right |]. split; [assumption |].
    repeat constructor. unfold fits. simpl. assumption.
Qed.

Lemma reachable_fits (st : state) (ptrs : list Z) (q : list block) :
  reachable st ptrs q -> Forall fits q.
Proof.
  induction 1 as [m t Hlen Ht Ht16 | st ptrs q size Hr IH Hs
                  | st ptrs q addr fuel st' Hr IH Hin Hc].
  - constructor.
  - apply Forall_app. split; [assumption |].
    destruct (snd (circalloc st size)) as [p |] eqn:Hp.
    + apply (circalloc_some st size p); try assumption.
      apply (inv_state_ok _ _ _ (reachable_inv _ _ _ Hr)).
    + rewrite (new_blocks_none _ _ Hp). constructor.
  - now apply Forall_retire, fits_mark.
Qed.

(** X3: The payload of every block handed out lies inside the arena.  A
    successful [circalloc(size)] returns a pointer [p] with the [size]
    bytes from [p] inside its block, and the block, like every
    outstanding block of a valid run, ends at or before the end of the
    arena. *)
Theorem alloc_payload_in_arena (st : state) (ptrs : list Z) (q : list block)
    (size p : Z) :
  reachable st ptrs q -> size_ok size ->
  snd (circalloc st size) = Some p ->
  let b := mkBlock (p - sizeof_hdr) (block_size size) HDR_INUSE in
  In b (new_blocks st size) /\
  sizeof_hdr <= p /\ p + size <= bstart b + blen b <= BUFFSIZE /\
  Forall fits (q ++ new_blocks st size).
Proof.
  intros Hr Hs Hp. cbv zeta. cbn [bstart blen].
  pose proof (inv_state_ok _ _ _ (reachable_inv _ _ _ Hr)) as Hst.
  pose proof (block_size_bounds size Hs) as (Hb & Hb16 & Hb').
  destruct (circalloc_some st size p Hst Hs Hp) as (_ & Hpe & Ho & Hfit & Hnew).
  split.
  { unfold new_blocks. rewrite Hp. apply in_or_app. right. now left. }
  destruct Hst as [Hh Ht].
  split; [destruct Ho as [Ho | Ho]; rewrite Hpe, Ho; unfold_consts; lia |].
  split; [rewrite Hpe; unfold_consts; lia |].
  apply (reachable_fits _ _ _ (reach_alloc st ptrs q size Hr Hs)).
Qed.

Lemma alloc_payload_in_arena_witness :
  408 + 88 <= (408 - sizeof_hdr) + block_size 88 <= BUFFSIZE.
Proof.
  destruct (alloc_payload_in_arena test6_3 test6_ptrs3 test6_q3 88 408
              test6_reachable) as (_ & _ & H & _).
  - vm_compute. split; [discriminate | reflexivity].
  - reflexivity.
  - exact H.
Defined.

(** ** Blocks do not overlap *)

Lemma layout_suffix (t h : Z) (q1 q2 : list block) :
  0 <= t < BUFFSIZE -> layout t h (q1 ++ q2) ->
  layout ((t + total q1) mod BUFFSIZE) h q2.
Proof.
  revert t. induction q1 as [| b q1 IH]; intros t Ht Hl.
  - simpl in *. now rewrite Z.add_0_r, Z.mod_small.
  - destruct Hl as [_ Hl]. apply IH in Hl.
    + rewrite total_cons.
      replace ((t + (blen b + total q1)) mod BUFFSIZE)
        with (((t + blen b) mod BUFFSIZE + total q1) mod BUFFSIZE);
        [assumption |].
      rewrite Zplus_mod_idemp_l. f_equal. lia.
    + apply Z.mod_pos_bound. reflexivity.
Qed.

(** The first block of a queue overlaps no later block. *)
Lemma layout_first_disjoint (t h : Z) (b c : block) (q : list block) :
  0 <= t < BUFFSIZE -> lens_pos (b :: q) -> total (b :: q) < BUFFSIZE ->
  Forall fits (b :: q) -> layout t h (b :: q) -> In c q ->
  disjoint b c.
Proof.
  intros Ht Hp Htot Hfit [Hb Hl] Hin.
  inversion Hp as [| ? ? Hbl Hq]; subst.
  inversion Hfit as [| ? ? Hbf Hqf]; subst.
  rewrite total_cons in Htot.
  destruct (layout_In _ h q c (Z.mod_pos_bound (bstart b + blen b) BUFFSIZE eq_refl)
              Hq Hl Hin) as (d & Hd0 & Hd1 & Hd2).
  rewrite List.Forall_forall in Hqf. specialize (Hqf c Hin).
  unfold lens_pos in Hq. rewrite List.Forall_forall in Hq. specialize (Hq c Hin).
  unfold disjoint, fits in *. rewrite Hd2 in *. unfold_consts. zlia.
Qed.

(** A block of a queue overlaps no later block. *)
Lemma layout_later_disjoint (t h : Z) (b c : block) (q1 q2 : list block) :
  0 <= t < BUFFSIZE -> lens_pos (q1 ++ b :: q2) ->
  total (q1 ++ b :: q2) < BUFFSIZE -> Forall fits (q1 ++ b :: q2) ->
  layout t h (q1 ++ b :: q2) -> In c q2 ->
  disjoint b c.
Proof.
  intros Ht Hp Htot Hfit Hl Hin.
  apply layout_suffix in Hl; [| assumption].
  unfold lens_pos in Hp. apply Forall_app in Hp as [Hp1 Hp2].
  apply Forall_app in Hfit as [_ Hfit].
  rewrite total_app in Htot. pose proof (total_nonneg q1 Hp1).
  apply (layout_first_disjoint ((t + total q1) mod BUFFSIZE) h b c q2).
  - apply Z.mod_pos_bound. reflexivity.
  - exact Hp2.
  - lia.
  - exact Hfit.
  - exact Hl.
  - exact Hin.
Qed.

Lemma disjoint_sym (b c : block) : disjoint b c -> disjoint c b.
Proof. unfold disjoint. tauto. Qed.

(** Two blocks of a queue that start at different offsets share no
    byte. *)
Lemma queue_disjoint (st : state) (ptrs : list Z) (q : list block)
    (b c : block) :
  inv st ptrs q -> Forall fits q -> In b q -> In c q ->
  bstart b <> bstart c -> disjoint b c.
Proof.
  intros Hinv Hfit Hb Hc Hne.
  pose proof (inv_tail _ _ _ Hinv) as [Ht _].
  pose proof (inv_lens_pos _ _ _ Hinv) as Hp.
  pose proof (inv_total _ _ _ Hinv) as Htot.
  pose proof (inv_layout _ _ _ Hinv) as Hl.
  destruct (List.in_split _ _ Hb) as (q1 & q2 & ->).
  apply in_app_or in Hc as [Hc | [Hc | Hc]].
  - destruct (List.in_split _ _ Hc) as (r1 & r2 & ->).
    rewrite <- List.app_assoc in *. cbn [app] in *.
    apply disjoint_sym.
    eapply (layout_later_disjoint (tail st) (head st) c b r1 (r2 ++ b :: q2));
      try eassumption.
    apply in_or_app. right. now left.
  - congruence.
  - now apply (layout_later_disjoint (tail st) (head st) b c q1 q2).
Qed.

(** A block that [circalloc] adds starts where no outstanding block
    starts. *)
Lemma new_block_fresh (st : state) (ptrs : list Z) (q : list block)
    (size : Z) (b c : block) :
  reachable st ptrs q -> size_ok size ->
  In b q -> In c (new_blocks st size) -> disjoint b c.
Proof.
  intros Hr Hs Hb Hc.
  pose proof (reach_alloc st ptrs q size Hr Hs) as Hr'.
  pose proof (reachable_inv _ _ _ Hr') as Hinv'.
  pose proof (reachable_fits _ _ _ Hr') as Hfit'.
  pose proof (inv_tail _ _ _ Hinv') as [Ht _].
  destruct (List.in_split _ _ Hb) as (q1 & q2 & ->).
  rewrite <- List.app_assoc in *. cbn [app] in *.
  eapply (layout_later_disjoint _ _ b c q1 (q2 ++ new_blocks st size));
    try eassumption.
  - apply (inv_lens_pos _ _ _ Hinv').
  - apply (inv_total _ _ _ Hinv').
  - apply (inv_layout _ _ _ Hinv').
  - apply in_or_app. now right.
Qed.

Lemma NoDup_remove_all (x : Z) (l : list Z) :
  List.NoDup l -> List.NoDup (List.remove Z.eq_dec x l).
Proof.
  induction 1 as [| y l Hy _ IH]; simpl; [constructor |].
  destruct (Z.eq_dec x y); [assumption |].
  constructor; [| assumption].
  intros Hin. apply List.in_remove in Hin. tauto.
Qed.

Lemma disjoint_starts (b c : block) :
  0 < blen b -> 0 < blen c -> disjoint b c -> bstart b <> bstart c.
Proof. unfold disjoint. lia. Qed.

Lemma reachable_NoDup (st : state) (ptrs : list Z) (q : list block) :
  reachable st ptrs q -> List.NoDup ptrs.
Proof.
  induction 1 as [m t Hlen Ht Ht16 | st ptrs q size Hr IH Hs
                  | st ptrs q addr fuel st' Hr IH Hin Hc].
  - constructor.
  - destruct (snd (circalloc st size)) as [p |] eqn:Hp; [| assumption].
    cbn [ptrs_after]. constructor; [| assumption]. intros Hin.
    pose proof (reachable_inv _ _ _ Hr) as Hinv.
    destruct (inv_addr _ _ _ _ Hinv Hin) as (b & Hb & _ & Hbs & _).
    assert (Hnb : In (mkBlock (p - sizeof_hdr) (block_size size) HDR_INUSE)
                     (new_blocks st size)).
    { unfold new_blocks. rewrite Hp. apply in_or_app. right. now left. }
    pose proof (new_block_fresh st ptrs q size b _ Hr Hs Hb Hnb) as Hd.
    apply disjoint_starts in Hd; [simpl in Hd; congruence | |].
    + pose proof (inv_lens_pos _ _ _ Hinv) as Hpos.
      unfold lens_pos in Hpos. rewrite List.Forall_forall in Hpos. now apply Hpos.
    + simpl. apply (block_size_bounds size Hs).
  - now apply NoDup_remove_all.
Qed.

(** X4: The outstanding pointers of a valid run are pairwise distinct, and
    the blocks of two of them share no byte: [circalloc] never hands out
    memory that is still in use. *)
Theorem outstanding_blocks_disjoint (st : state) (ptrs : list Z)
    (q : list block) :
  reachable st ptrs q ->
  List.NoDup ptrs /\
  (forall p1 p2, In p1 ptrs -> In p2 ptrs -> p1 <> p2 ->
     exists b1 b2,
       In b1 q /\ In b2 q /\
       bflag b1 = HDR_INUSE /\ bflag b2 = HDR_INUSE /\
       p1 = bstart b1 + sizeof_hdr /\ p2 = bstart b2 + sizeof_hdr /\
       fits b1 /\ fits b2 /\ disjoint b1 b2) /\
  (forall size b c, size_ok size -> In b q -> In c (new_blocks st size) ->
     disjoint b c).
Proof.
  intros Hr. pose proof (reachable_inv _ _ _ Hr) as Hinv.
  pose proof (reachable_fits _ _ _ Hr) as Hfit.
  split; [now apply (reachable_NoDup st ptrs q) |]. split.
  - intros p1 p2 H1 H2 Hne.
    destruct (inv_addr _ _ _ _ Hinv H1) as (b1 & Hb1 & Hf1 & Hs1 & _).
    destruct (inv_addr _ _ _ _ Hinv H2) as (b2 & Hb2 & Hf2 & Hs2 & _).
    exists b1, b2. rewrite List.Forall_forall in Hfit.
    repeat split; try assumption; try lia; try (now apply Hfit).
    apply (queue_disjoint st ptrs q); try assumption;
      [now apply List.Forall_forall | lia].
  - intros size b c Hs Hb Hc. now apply (new_block_fresh st ptrs q size).
Qed.

Lemma outstanding_blocks_disjoint_witness :
  List.NoDup test6_ptrs3 /\
  (exists b1 b2, In b1 test6_q3 /\ In b2 test6_q3 /\
                 520 = bstart b1 + sizeof_hdr /\ 8 = bstart b2 + sizeof_hdr /\
                 disjoint b1 b2).
Proof.
  destruct (outstanding_blocks_disjoint test6_3 test6_ptrs3 test6_q3
              test6_reachable) as (H1 & H2 & _).
  split; [exact H1 |].
  destruct (H2 520 8) as (b1 & b2 & Hb1 & Hb2 & _ & _ & Hp1 & Hp2 & _ & _ & Hd).
  - vm_compute. tauto.
  - vm_compute. tauto.
  - discriminate.
  - exists b1, b2. tauto.
Defined.

(** ** What the calls leave alone *)

(** X5: [circalloc] changes no byte of an outstanding block, header or
    payload: the headers it writes lie in the blocks it adds. *)
Theorem circalloc_keeps_outstanding_bytes (st : state) (ptrs : list Z)
    (q : list block) (size : Z) (b : block) (a : Z) :
  reachable st ptrs q -> size_ok size -> In b q -> in_block a b ->
  Mem.load8 (buffer (fst (circalloc st size))) a = Mem.load8 (buffer st) a.
Proof.
  intros Hr Hs Hb Ha.
  pose proof (reachable_inv _ _ _ Hr) as Hinv.
  pose proof (inv_state_ok _ _ _ Hinv) as Hst.
  pose proof (block_size_bounds size Hs) as (Hbs & Hbs16 & _).
  destruct (inv_head _ _ _ Hinv) as [Hh Hh16].
  destruct (snd (circalloc st size)) as [p |] eqn:Hp.
  - destruct (circalloc_some st size p Hst Hs Hp) as (Hav & _).
    assert (Hnew : forall c, In c (new_blocks st size) -> disjoint b c)
      by (intros c Hc; now apply (new_block_fresh st ptrs q size)).
    unfold in_block, disjoint in *.
    destruct (wraps st size) eqn:Hw.
    + rewrite new_blocks_wrap in Hnew by assumption.
      rewrite circalloc_wrap by assumption. cbn [fst buffer].
      pose proof (Hnew _ (or_introl eq_refl)) as Hg.
      pose proof (Hnew _ (or_intror (or_introl eq_refl))) as Hn.
      simpl in Hg, Hn.
      rewrite !load8_write_hdr; [reflexivity | |]; unfold_consts; zlia.
    + rewrite new_blocks_nowrap in Hnew by assumption.
      rewrite circalloc_nowrap by assumption. cbn [fst buffer].
      pose proof (Hnew _ (or_introl eq_refl)) as Hn. simpl in Hn.
      rewrite load8_write_hdr; [reflexivity |]. unfold_consts. zlia.
  - now rewrite (circalloc_none_state _ _ Hp).
Qed.

Lemma circalloc_keeps_outstanding_bytes_witness :
  Mem.load8 (buffer (fst (circalloc test2_3 100))) 32 = HDR_INUSE.
Proof.
  rewrite (circalloc_keeps_outstanding_bytes test2_3 test2_ptrs3 test2_q3 100
             (mkBlock 32 16 HDR_INUSE) 32 test2_reachable).
  - reflexivity.
  - vm_compute. split; [discriminate | reflexivity].
  - vm_compute. tauto.
  - vm_compute. split; [discriminate | reflexivity].
Defined.

(** X6: A valid [circfree] changes one byte of the arena, the [free] byte of
    the header of the block it releases: every byte of every other
    outstanding block and every payload byte of the released block stay
    as they are. *)
Theorem circfree_keeps_payloads (st : state) (ptrs : list Z) (q : list block)
    (addr : Z) (fuel : nat) (st' : state) (b : block) (a : Z) :
  reachable st ptrs q -> In addr ptrs ->
  circfree fuel st addr = Some st' ->
  In b q -> in_block a b ->
  bstart b <> addr - sizeof_hdr \/ bstart b + sizeof_hdr <= a ->
  Mem.load8 (buffer st') a = Mem.load8 (buffer st) a.
Proof.
  intros Hr Hin Hc Hb Ha Hcase.
  pose proof (reachable_inv _ _ _ Hr) as Hinv.
  pose proof (reachable_fits _ _ _ Hr) as Hfit.
  rewrite (circfree_eq_freed _ _ _ _ _ _ Hinv Hin Hc). cbn [freed buffer].
  unfold Mem.set_free. apply load8_store8_ne.
  destruct (inv_addr _ _ _ _ Hinv Hin) as (b0 & Hb0 & _ & Hs0 & _).
  destruct (Z.eq_dec (bstart b) (bstart b0)) as [He | Hne].
  - unfold in_block in Ha. unfold_consts. lia.
  - pose proof (queue_disjoint st ptrs q b b0 Hinv Hfit Hb Hb0 Hne) as Hd.
    pose proof (inv_lens_pos _ _ _ Hinv) as Hpos.
    unfold lens_pos in Hpos. rewrite List.Forall_forall in Hpos.
    pose proof (Hpos b0 Hb0). unfold in_block, disjoint in *. lia.
Qed.

Lemma circfree_keeps_payloads_witness :
  Mem.load8 (buffer test2_4) 0 = Mem.load8 (buffer test2_3) 0.
Proof.
  apply (circfree_keeps_payloads test2_3 test2_ptrs3 test2_q3 40 FUEL test2_4
           (mkBlock 0 32 HDR_INUSE) 0 test2_reachable).
  - vm_compute. tauto.
  - vm_compute. reflexivity.
  - vm_compute. tauto.
  - vm_compute. split; [discriminate | reflexivity].
  - left. vm_compute. discriminate.
Defined.

(** ** The free space along a run *)

Lemma total_mod16 (m : list Z) (q : list block) :
  Forall (block_ok m) q -> total q mod 16 = 0.
Proof.
  induction 1 as [| b q Hb _ IH]; [reflexivity |].
  rewrite total_cons. destruct Hb as (_ & (_ & Hl16) & _). zlia.
Qed.

Lemma inv_avail (st : state) (ptrs : list Z) (q : list block) :
  inv st ptrs q -> avail st = BUFFSIZE - total q.
Proof.
  intros Hinv. rewrite (avail_eq st (inv_state_ok _ _ _ Hinv)).
  now rewrite (inv_held _ _ _ Hinv).
Qed.

Lemma total_new_blocks (st : state) (size : Z) :
  state_ok st -> size_ok size ->
  total (new_blocks st size) =
  match snd (circalloc st size) with
  | Some _ => rsize st size
  | None => 0
  end.
Proof.
  intros Hst Hs. destruct (snd (circalloc st size)) as [p |] eqn:Hp.
  - destruct (circalloc_some st size p Hst Hs Hp) as (Hav & _).
    unfold rsize. destruct (wraps st size) eqn:Hw.
    + rewrite new_blocks_wrap, rem_of_wrap by assumption. simpl. lia.
    + rewrite new_blocks_nowrap, rem_of_nowrap by assumption. simpl. lia.
  - now rewrite (new_blocks_none _ _ Hp).
Qed.

(** X7: Along a valid run [avail()] is the arena size less the bytes of the
    outstanding blocks, and at least 16.  A successful [circalloc] takes
    the block length and the wrap gap from it, a failed one nothing, and
    a valid [circfree] gives back the bytes of the blocks it retires. *)
Theorem avail_accounting (st : state) (ptrs : list Z) (q : list block) :
  reachable st ptrs q ->
  avail st = BUFFSIZE - total q /\ 16 <= avail st /\
  (forall size, size_ok size ->
     avail (fst (circalloc st size)) =
     avail st - match snd (circalloc st size) with
                | Some _ => rsize st size
                | None => 0
                end) /\
  (forall addr fuel st', In addr ptrs -> circfree fuel st addr = Some st' ->
     avail st' = avail st + total (retired (mark addr q))).
Proof.
  intros Hr. pose proof (reachable_inv _ _ _ Hr) as Hinv.
  pose proof (inv_avail _ _ _ Hinv) as Hav.
  split; [assumption |]. split; [| split].
  - pose proof (total_mod16 _ _ (inv_blocks _ _ _ Hinv)).
    pose proof (inv_total _ _ _ Hinv). rewrite Hav. unfold_consts. zlia.
  - intros size Hs.
    rewrite (inv_avail _ _ _ (inv_alloc st ptrs q size Hinv Hs)).
    rewrite total_app, total_new_blocks;
      [lia | apply (inv_state_ok _ _ _ Hinv) | assumption].
  - intros addr fuel st' Hin Hc.
    rewrite (circfree_eq_freed _ _ _ _ _ _ Hinv Hin Hc).
    rewrite (inv_avail _ _ _ (inv_freed st ptrs q addr Hinv Hin)), Hav.
    assert (Hp : lens_pos (mark addr q)).
    { destruct (inv_addr _ _ _ _ Hinv Hin) as (b & _ & _ & _ & H16 & _).
      eapply block_ok_lens_pos, blocks_ok_mark;
        [apply (inv_len _ _ _ Hinv) | exact H16 | apply (inv_blocks _ _ _ Hinv)]. }
    pose proof (total_retire _ Hp) as Htr. rewrite total_mark in Htr. lia.
Qed.

Lemma avail_accounting_witness :
  avail test6_3 = BUFFSIZE - total test6_q3 /\
  avail (fst (circalloc test6_3 88)) = avail test6_3 - 96.
Proof.
  destruct (avail_accounting test6_3 test6_ptrs3 test6_q3 test6_reachable)
    as (H1 & _ & H2 & _).
  split; [exact H1 |]. apply (H2 88).
  vm_compute. split; [discriminate | reflexivity].
Defined.

(** ** How large a request can be *)

(** X8: For the sizes whose [int] arithmetic is exact ([size_ok]) and from
    any state with [head] and [tail] inside the arena, no request of more
    than [BUFFSIZE - 24] = 2024 bytes succeeds.  Requests near 2^32 are
    outside these sizes. *)
Theorem circalloc_max_size (st : state) (size : Z) :
  state_ok st -> size_ok size ->
  snd (circalloc st size) <> None ->
  size <= BUFFSIZE - 24 /\ block_size size <= BUFFSIZE - 16.
Proof.
  intros Hst Hs Hp.
  destruct (snd (circalloc st size)) as [p |] eqn:Hpe; [| congruence].
  destruct (circalloc_some st size p Hst Hs Hpe) as (Hav & _).
  pose proof (rsize_bounds st size Hst Hs) as (_ & Hrem).
  pose proof (block_size_bounds size Hs) as (Hb & Hb16 & Hb').
  pose proof (avail_pos st Hst) as (Ha & _).
  unfold rsize in Hav. unfold_consts. zlia.
Qed.

Lemma circalloc_max_size_witness :
  1001 <= BUFFSIZE - 24 /\ block_size 1001 <= BUFFSIZE - 16.
Proof.
  apply (circalloc_max_size test2_2 1001).
  - vm_compute. repeat split; discriminate.
  - vm_compute. split; [discriminate | reflexivity].
  - vm_compute. discriminate.
Defined.

(** X9: In an empty allocator of a valid run, [head == tail] at any aligned
    offset, a request succeeds exactly when either its block fits between
    [head] and the end of the arena and is shorter than the whole arena
    (a block of exactly [BUFFSIZE] bytes at [head = 0] is refused), or
    its block does not fit there and is shorter than [head] bytes, so
    that gap and block together leave a byte free.  Every request of up
    to 1016 bytes succeeds. *)
Theorem circalloc_when_empty (st : state) (ptrs : list Z) (q : list block)
    (size : Z) :
  reachable st ptrs q -> ptrs = [] -> size_ok size ->
  (snd (circalloc st size) <> None <->
   (block_size size <= BUFFSIZE - head st /\ block_size size < BUFFSIZE) \/
   (BUFFSIZE - head st < block_size size /\ block_size size < head st)) /\
  (size <= 1016 -> snd (circalloc st size) <> None).
Proof.
  intros Hr Hnil Hs. pose proof (reachable_inv _ _ _ Hr) as Hinv.
  pose proof (inv_state_ok _ _ _ Hinv) as Hst.
  apply (inv_ptrs_nil _ _ _ Hinv) in Hnil.
  pose proof (proj2 (inv_empty_iff _ _ _ Hinv) Hnil) as Hht.
  pose proof (avail_pos st Hst) as (_ & Hfull).
  pose proof (Hfull Hht) as Hav. clear Hfull.
  pose proof (circalloc_none_iff st size Hst Hs) as Hiff.
  pose proof (wraps_true_iff st size Hst Hs) as Hwi.
  pose proof (block_size_bounds size Hs) as (Hb & Hb16 & Hb').
  destruct Hst as [Hh Ht].
  assert (Hmain :
    snd (circalloc st size) <> None <->
    (block_size size <= BUFFSIZE - head st /\ block_size size < BUFFSIZE) \/
    (BUFFSIZE - head st < block_size size /\ block_size size < head st)).
  { unfold rsize in Hiff. destruct (wraps st size) eqn:Hw.
    - rewrite (rem_of_wrap _ _ (conj Hh Ht) Hw) in Hiff.
      assert (BUFFSIZE - head st < block_size size) by (apply Hwi; reflexivity).
      split.
      + intros Hne. right. split; [assumption |].
        destruct (Z.lt_ge_cases (block_size size) (head st)); [assumption |].
        exfalso. apply Hne, Hiff. lia.
      + intros [[H1 _] | [_ H2]] Hn; [lia |]. apply Hiff in Hn. lia.
    - rewrite (rem_of_nowrap _ _ Hw) in Hiff.
      assert (block_size size <= BUFFSIZE - head st).
      { destruct (Z.le_gt_cases (block_size size) (BUFFSIZE - head st));
          [assumption |].
        destruct Hwi as [_ Hwi]. discriminate Hwi. lia. }
      split.
      + intros Hne. left. split; [assumption |].
        destruct (Z.lt_ge_cases (block_size size) BUFFSIZE); [assumption |].
        exfalso. apply Hne, Hiff. lia.
      + intros [[_ H1] | [H2 _]] Hn; [| lia]. apply Hiff in Hn. lia. }
  split; [exact Hmain |].
  intros Hsz. apply Hmain. unfold_consts. zlia.
Qed.

Lemma circalloc_when_empty_witness :
  snd (circalloc test3_6 1016) <> None /\
  snd (circalloc (preload zero_arena 1024) 1017) = None /\
  (block_size 2025 = BUFFSIZE /\ snd (circalloc test2_0 2025) = None).
Proof.
  assert (Hnone : forall st size,
            reachable st [] [] -> size_ok size ->
            ~ ((block_size size <= BUFFSIZE - head st /\
                block_size size < BUFFSIZE) \/
               (BUFFSIZE - head st < block_size size /\
                block_size size < head st)) ->
            snd (circalloc st size) = None).
  { intros st size Hr Hs Hno.
    destruct (circalloc_when_empty st [] [] size Hr eq_refl Hs) as (H & _).
    destruct (snd (circalloc st size)) eqn:He; [| reflexivity].
    exfalso. apply Hno, H. discriminate. }
  split; [| split; [| split]].
  - apply (circalloc_when_empty test3_6 test3_ptrs6 test3_q6 1016 test3_reachable).
    + reflexivity.
    + vm_compute. split; [discriminate | reflexivity].
    + vm_compute. discriminate.
  - apply Hnone.
    + apply reach_empty; [reflexivity | | reflexivity].
      vm_compute. split; [discriminate | reflexivity].
    + vm_compute. split; [discriminate | reflexivity].
    + vm_compute. intros [[Hn _] | [_ Hn]]; [now apply Hn | discriminate].
  - reflexivity.
  - apply Hnone.
    + apply reach_empty; [reflexivity | | reflexivity].
      vm_compute. split; [discriminate | reflexivity].
    + vm_compute. split; [discriminate | reflexivity].
    + vm_compute. intros [[_ Hn] | [Hn _]]; discriminate.
Defined.

(** ** [circfree] outside valid runs *)

(** X12: The source warns that a corrupted arena may make [circfree] loop for
    ever.  This is one such case: when the allocator is not empty and
    the [free] byte of the header at [tail] is none of [HDR_FREE],
    [HDR_INUSE], [HDR_GAP], no case of the [switch] applies, nothing
    changes, and the loop does not end, whatever the fuel. *)
Theorem circfree_spins_on_bad_flag (st : state) (addr : Z) (fuel : nat) :
  let m := Mem.set_free (buffer st) (addr - sizeof_hdr) HDR_FREE in
  head st <> tail st ->
  Mem.hdr_free m (tail st) <> HDR_FREE ->
  Mem.hdr_free m (tail st) <> HDR_INUSE ->
  Mem.hdr_free m (tail st) <> HDR_GAP ->
  circfree fuel st addr = None.
Proof.
  cbv zeta. intros Hne Hf Hi Hg. unfold circfree.
  assert (Hloop : free_loop fuel
            (Mem.set_free (buffer st) (addr - sizeof_hdr) HDR_FREE)
            (head st) (tail st) (tail st) None = None).
  { induction fuel as [| fuel IH]; [reflexivity |].
    rewrite free_loop_S. cbv zeta.
    destruct (Z.eqb_spec (Mem.hdr_free
                (Mem.set_free (buffer st) (addr - sizeof_hdr) HDR_FREE)
                (tail st)) HDR_INUSE); [contradiction |].
    destruct (Z.eqb_spec (Mem.hdr_free
                (Mem.set_free (buffer st) (addr - sizeof_hdr) HDR_FREE)
                (tail st)) HDR_GAP); [contradiction |].
    destruct (Z.eqb_spec (Mem.hdr_free
                (Mem.set_free (buffer st) (addr - sizeof_hdr) HDR_FREE)
                (tail st)) HDR_FREE); [contradiction |].
    destruct (Z.eqb_spec (head st) (tail st)); [contradiction | exact IH]. }
  now rewrite Hloop.
Qed.

Lemma circfree_spins_on_bad_flag_witness :
  circfree 1000 (mkState (Mem.store8 zero_arena 0 7) 32 0) 24 = None.
Proof.
  apply (circfree_spins_on_bad_flag (mkState (Mem.store8 zero_arena 0 7) 32 0) 24);
    vm_compute; discriminate.
Defined.

Lemma retire_front_ok (q : list block) : front_ok q -> retire q = q.
Proof.
  intros [-> | (b & Hb & Hf)]; [reflexivity |].
  destruct q as [| c q]; [discriminate |]. cbn [oldest] in Hb. cbn [retire].
  destruct (Z.eqb_spec (bflag c) HDR_GAP) as [Hg | Hg].
  - destruct q as [| d q]; [discriminate |]. simpl in Hb.
    injection Hb as ->. rewrite Hg, Hf. reflexivity.
  - injection Hb as ->. rewrite Hf. reflexivity.
Qed.

Lemma set_free_same (m : list Z) (o : Z) :
  0 <= o < Z.of_nat (length m) -> Mem.hdr_free m o = HDR_FREE ->
  Mem.set_free m o HDR_FREE = m.
Proof.
  unfold Mem.set_free, Mem.hdr_free, Mem.store8, Mem.load8. intros Ho Hf.
  destruct (Z.ltb_spec o 0) as [Hn | _]; [lia |].
  apply list_insert_id.
  destruct (lookup_lt_is_Some_2 m (Z.to_nat o)) as [x Hx]; [lia |].
  rewrite Hx in *. simpl in Hf. now rewrite Hf.
Qed.

(** X13: Freeing again a block that is already freed but not yet retired
    (an older block is still in use) changes nothing at all. *)
Theorem circfree_again_is_noop (st : state) (ptrs : list Z) (q : list block)
    (b : block) (fuel : nat) :
  reachable st ptrs q -> In b q -> bflag b = HDR_FREE ->
  (FUEL <= fuel)%nat ->
  circfree fuel st (bstart b + sizeof_hdr) = Some st.
Proof.
  intros Hr Hb Hf Hfuel. pose proof (reachable_inv _ _ _ Hr) as Hinv.
  pose proof (inv_blocks _ _ _ Hinv) as Hq.
  assert (Hbo : block_ok (buffer st) b)
    by (rewrite List.Forall_forall in Hq; now apply Hq).
  destruct Hbo as ((Hs & _) & _ & _ & Hmf & _).
  unfold circfree.
  replace (bstart b + sizeof_hdr - sizeof_hdr) with (bstart b) by lia.
  rewrite set_free_same;
    [| rewrite (inv_len _ _ _ Hinv); unfold_consts; lia | congruence].
  destruct (free_loop_retire (buffer st) (head st) (length q) q (tail st) fuel)
    as [Hloop _].
  - lia.
  - pose proof (inv_length _ _ _ Hinv). lia.
  - apply (inv_tail _ _ _ Hinv).
  - apply (inv_layout _ _ _ Hinv).
  - assumption.
  - apply (inv_gaps _ _ _ Hinv).
  - apply (inv_total _ _ _ Hinv).
  - destruct q; [contradiction | discriminate].
  - rewrite Hloop, (retire_front_ok q (inv_front _ _ _ Hinv)).
    pose proof (inv_layout _ _ _ Hinv) as Hlay.
    destruct q as [| c q]; [contradiction |]. destruct Hlay as [Hc _].
    cbn [start_of]. rewrite Hc. now destruct st.
Qed.

Lemma circfree_again_is_noop_witness :
  circfree FUEL test2_4 40 = Some test2_4.
Proof.
  apply (circfree_again_is_noop test2_4 test2_ptrs4 test2_q4
           (mkBlock 32 16 HDR_FREE) FUEL test2_4_reachable).
  - vm_compute. tauto.
  - reflexivity.
  - apply le_n.
Defined.

(** ** [testgetoffset] and [testreset] *)

(** X15: For the result of [circalloc], [testgetoffset] is [(uint32_t)-1]
    exactly for the null pointer; for a pointer it is its offset in the
    arena, which is at least [sizeof(struct hdr)] and below [BUFFSIZE]. *)
Theorem testgetoffset_of_circalloc (st : state) (size : Z) :
  state_ok st -> size_ok size ->
  (testgetoffset (snd (circalloc st size)) = 2 ^ 32 - 1 <->
   snd (circalloc st size) = None) /\
  (forall p, snd (circalloc st size) = Some p ->
     testgetoffset (Some p) = p /\ sizeof_hdr <= p < BUFFSIZE).
Proof.
  intros Hst Hs.
  pose proof (block_size_bounds size Hs) as (Hb & Hb16 & _).
  assert (Hp : forall p, snd (circalloc st size) = Some p ->
                 sizeof_hdr <= p < BUFFSIZE).
  { intros p Hp.
    destruct (circalloc_some st size p Hst Hs Hp) as (_ & Hpe & Ho & Hfit & _).
    destruct Hst as [Hh Ht].
    destruct Ho as [Ho | Ho]; rewrite Ho in *; unfold_consts; zlia. }
  split.
  - destruct (snd (circalloc st size)) as [p |] eqn:He.
    + specialize (Hp p eq_refl). simpl. rewrite u32_small by (unfold_consts; lia).
      split; [unfold_consts; lia | discriminate].
    + split; reflexivity.
  - intros p He. specialize (Hp p He). split; [| assumption].
    simpl. apply u32_small. unfold_consts. lia.
Qed.

Lemma testgetoffset_of_circalloc_witness :
  testgetoffset (snd (circalloc test6_3 88)) = 408 /\
  testgetoffset (snd (circalloc test6_3 104)) = 2 ^ 32 - 1.
Proof.
  assert (Hst : state_ok test6_3) by (vm_compute; repeat split; discriminate).
  split.
  - destruct (testgetoffset_of_circalloc test6_3 88 Hst) as (_ & H).
    + vm_compute. split; [discriminate | reflexivity].
    + apply (H 408). reflexivity.
  - destruct (testgetoffset_of_circalloc test6_3 104 Hst) as (H & _).
    + vm_compute. split; [discriminate | reflexivity].
    + apply H. reflexivity.
Defined.

(** X16: [testreset] makes the allocator usable again whatever state it was
    in and whatever the arena holds: the next [circalloc] of up to
    [BUFFSIZE - 24] bytes returns [buffer + sizeof(struct hdr)], with its
    block at offset 0, and freeing that pointer ends and leaves the
    allocator empty with [head == tail] at the end of the block. *)
Theorem testreset_recovers (st : state) (size : Z) (fuel : nat) :
  length (buffer st) = Z.to_nat BUFFSIZE ->
  0 <= size <= BUFFSIZE - 24 -> (1 <= fuel)%nat ->
  let a := circalloc (testreset st) size in
  snd a = Some sizeof_hdr /\
  head (fst a) = block_size size /\ tail (fst a) = 0 /\
  exists st', circfree fuel (fst a) sizeof_hdr = Some st' /\
              head st' = block_size size /\ tail st' = block_size size.
Proof.
  intros Hlen Hsz Hfuel. cbv zeta.
  assert (Hs : size_ok size) by (split; unfold_consts; lia).
  assert (Hr : reachable (testreset st) [] []).
  { apply (reach_empty (buffer st) 0); [assumption | | reflexivity].
    unfold_consts. lia. }
  pose proof (reachable_inv _ _ _ Hr) as Hinv.
  pose proof (inv_state_ok _ _ _ Hinv) as Hst.
  pose proof (block_size_bounds size Hs) as (Hb & Hb16 & Hb').
  assert (Hbn : block_size size < BUFFSIZE) by (unfold_consts; zlia).
  assert (Hw : wraps (testreset st) size = false).
  { destruct (wraps (testreset st) size) eqn:Hw; [| reflexivity].
    apply (wraps_true_iff _ _ Hst Hs) in Hw. simpl in Hw. lia. }
  assert (Hav : rsize (testreset st) size < avail (testreset st)).
  { unfold rsize. rewrite (rem_of_nowrap _ _ Hw).
    replace (avail (testreset st)) with BUFFSIZE by reflexivity. lia. }
  pose proof (reach_alloc _ _ _ size Hr Hs) as Hr1.
  pose proof (reachable_inv _ _ _ Hr1) as Hinv1.
  rewrite new_blocks_nowrap in Hinv1 by assumption.
  rewrite circalloc_nowrap in Hinv1 |- * by assumption.
  cbn [fst snd head tail testreset ptrs_after app] in Hinv1 |- *.
  rewrite Z.add_0_l, Z.mod_small by lia.
  rewrite Z.add_0_l, Z.mod_small in Hinv1 by lia.
  split; [reflexivity |]. split; [reflexivity |]. split; [reflexivity |].
  eexists. split.
  - eapply circfree_freed; [exact Hinv1 | now left | simpl; lia].
  - pose proof (inv_freed _ _ _ sizeof_hdr Hinv1 (or_introl eq_refl)) as Hinv2.
    change (List.remove Z.eq_dec sizeof_hdr _) with (@nil Z) in Hinv2.
    pose proof (proj1 (inv_ptrs_nil _ _ _ Hinv2) eq_refl) as Hq.
    pose proof (proj2 (inv_empty_iff _ _ _ Hinv2) Hq) as Hht.
    split; [reflexivity |]. symmetry in Hht.
    etransitivity; [exact Hht | reflexivity].
Qed.

Lemma testreset_recovers_witness :
  snd (circalloc (testreset test6_3) 2024) = Some sizeof_hdr /\
  head (fst (circalloc (testreset test6_3) 2024)) = 2032.
Proof.
  destruct (testreset_recovers test6_3 2024 1) as (H1 & H2 & _).
  - reflexivity.
  - vm_compute. split; discriminate.
  - apply le_n.
  - split; [exact H1 | exact H2].
Defined.

(** ** Gap blocks *)

Lemma reachable_gap_end (st : state) (ptrs : list Z) (q : list block) :
  reachable st ptrs q ->
  Forall (fun b => bflag b = HDR_GAP -> bstart b + blen b = BUFFSIZE) q.
Proof.
  induction 1 as [m t Hlen Ht Ht16 | st ptrs q size Hr IH Hs
                  | st ptrs q addr fuel st' Hr IH Hin Hc].
  - constructor.
  - apply Forall_app. split; [assumption |].
    pose proof (inv_state_ok _ _ _ (reachable_inv _ _ _ Hr)) as Hst.
    destruct (snd (circalloc st size)) as [p |] eqn:Hp.
    + destruct (circalloc_some st size p Hst Hs Hp) as (Hav & _).
      destruct (wraps st size) eqn:Hw.
      * rewrite new_blocks_wrap by assumption.
        repeat constructor; simpl; intros; [lia | unfold_consts; discriminate].
      * rewrite new_blocks_nowrap by assumption.
        repeat constructor. simpl. unfold_consts. discriminate.
    + rewrite (new_blocks_none _ _ Hp). constructor.
  - apply Forall_retire. rewrite List.Forall_forall in *.
    intros b Hb. apply In_mark in Hb as (c & Hc' & ->).
    destruct (bstart c =? addr - sizeof_hdr); simpl.
    + unfold_consts. discriminate.
    + now apply IH.
Qed.

(** Two blocks of the queue that start at the same offset are the same
    block. *)
Lemma queue_same_start (st : state) (ptrs : list Z) (q : list block)
    (b c : block) :
  inv st ptrs q -> Forall fits q -> In b q -> In c q ->
  bstart b = bstart c -> b = c.
Proof.
  intros Hinv Hfit Hb Hc He.
  pose proof (inv_tail _ _ _ Hinv) as [Ht _].
  pose proof (inv_lens_pos _ _ _ Hinv) as Hp.
  pose proof (inv_total _ _ _ Hinv) as Htot.
  pose proof (inv_layout _ _ _ Hinv) as Hl.
  assert (Hpos : forall x, In x q -> 0 < blen x).
  { unfold lens_pos in Hp. now rewrite List.Forall_forall in Hp. }
  pose proof (Hpos b Hb). pose proof (Hpos c Hc).
  destruct (List.in_split _ _ Hb) as (q1 & q2 & ->).
  apply in_app_or in Hc as [Hc | [Hc | Hc]].
  - exfalso. destruct (List.in_split _ _ Hc) as (r1 & r2 & ->).
    rewrite <- List.app_assoc in *. cbn [app] in *.
    assert (Hd : disjoint c b).
    { eapply (layout_later_disjoint (tail st) (head st) c b r1 (r2 ++ b :: q2));
        try eassumption.
      apply in_or_app. right. now left. }
    apply disjoint_starts in Hd; [congruence | assumption ..].
  - assumption.
  - exfalso.
    assert (Hd : disjoint b c)
      by now apply (layout_later_disjoint (tail st) (head st) b c q1 q2).
    apply disjoint_starts in Hd; [congruence | assumption ..].
Qed.

(** X10: The source calls it an error to have two gap blocks after each
    other or a gap block with no block behind it.  Valid runs never
    produce either: a gap block is followed by a block that is not a gap,
    it reaches exactly to the end of the arena, its would-be pointer is
    never handed out, and at most one gap block is outstanding. *)
Theorem gap_blocks_well_formed (st : state) (ptrs : list Z) (q : list block) :
  reachable st ptrs q ->
  gaps_ok q /\
  (forall g, In g q -> bflag g = HDR_GAP ->
     bstart g + blen g = BUFFSIZE /\ ~ In (bstart g + sizeof_hdr) ptrs) /\
  (forall g1 g2, In g1 q -> In g2 q ->
     bflag g1 = HDR_GAP -> bflag g2 = HDR_GAP -> g1 = g2).
Proof.
  intros Hr. pose proof (reachable_inv _ _ _ Hr) as Hinv.
  pose proof (reachable_fits _ _ _ Hr) as Hfit.
  pose proof (reachable_gap_end _ _ _ Hr) as Hend.
  rewrite List.Forall_forall in Hend.
  split; [apply (inv_gaps _ _ _ Hinv) |]. split.
  - intros g Hg Hf. split; [now apply Hend |].
    intros Hin. destruct (inv_addr _ _ _ _ Hinv Hin) as (b & Hb & Hbf & Hbs & _).
    assert (b = g)
      by (apply (queue_same_start st ptrs q); try assumption; lia).
    subst b. unfold_consts. congruence.
  - intros g1 g2 H1 H2 Hf1 Hf2.
    apply (queue_same_start st ptrs q); try assumption.
    destruct (Z.eq_dec (bstart g1) (bstart g2)) as [He | Hne]; [assumption |].
    exfalso.
    pose proof (queue_disjoint st ptrs q g1 g2 Hinv Hfit H1 H2 Hne) as Hd.
    pose proof (Hend g1 H1 Hf1). pose proof (Hend g2 H2 Hf2).
    pose proof (inv_lens_pos _ _ _ Hinv) as Hp.
    unfold lens_pos in Hp. rewrite List.Forall_forall in Hp.
    pose proof (Hp g1 H1). pose proof (Hp g2 H2).
    unfold disjoint in Hd. lia.
Qed.

Lemma gap_blocks_well_formed_witness :
  bstart (mkBlock 2032 16 HDR_GAP) + blen (mkBlock 2032 16 HDR_GAP) = BUFFSIZE /\
  ~ In (2032 + sizeof_hdr) test6_ptrs3.
Proof.
  destruct (gap_blocks_well_formed test6_3 test6_ptrs3 test6_q3 test6_reachable)
    as (_ & H & _).
  apply (H (mkBlock 2032 16 HDR_GAP)).
  - vm_compute. tauto.
  - reflexivity.
Defined.

(** ** Requests near 2^32 *)

(** X11: The block length is computed in 32 bits.  For a request of
    [2^32 - 23] to [2^32 - 8] bytes it comes out as 0: [circalloc]
    reserves nothing, writes nothing, leaves [head] and [tail] where
    they are, and still returns the non-null pointer
    [buffer + head + sizeof(struct hdr)]. *)
Theorem circalloc_huge_size_reserves_nothing (st : state) (size : Z) :
  state_ok st -> 2 ^ 32 - 23 <= size <= 2 ^ 32 - 8 ->
  block_size size = 0 /\
  circalloc st size = (st, Some (head st + sizeof_hdr)).
Proof.
  intros Hst Hsz.
  assert (Hb : block_size size = 0).
  { unfold block_size. rewrite land_lnot_15. unfold sizeof_hdr.
    replace ((size + 8 + 15) / 16) with (2 ^ 28) by zlia. reflexivity. }
  split; [assumption |].
  pose proof (avail_pos st Hst) as (Ha & _).
  destruct Hst as [Hh Ht].
  unfold circalloc, rem_of, offset_of, wraps. rewrite Hb.
  change (u32 0) with 0.
  assert (Hlt : (u32 (BUFFSIZE - head st) <? 0) = false).
  { apply Z.ltb_ge. unfold u32. apply Z.mod_pos_bound. reflexivity. }
  rewrite Hlt, andb_false_r. change (u32 (0 + 0)) with 0.
  destruct (Z.leb_spec (avail st) 0) as [Hle | _]; [lia |].
  unfold circallocblock. change (u32 0 =? 0) with true. cbv iota.
  change (0 =? 0) with true. cbv iota.
  rewrite i32_small by (unfold_consts; lia). reflexivity.
Qed.

Lemma circalloc_huge_size_reserves_nothing_witness :
  circalloc test2_0 4294967280 = (test2_0, Some 8).
Proof.
  destruct (circalloc_huge_size_reserves_nothing test2_0 4294967280) as (_ & H).
  - vm_compute. repeat split; discriminate.
  - vm_compute. split; discriminate.
  - exact H.
Defined.
